(** * rich: terminal markup and value pretty-printer (rich.go)

    A shallow embedding of [rich.go] and the properties of its tag parser,
    style lookup, keyword highlighter and value formatter.

    Modelling conventions.
    - A Go [string] is a byte string: [String.string].  The helpers of
      package [strings] and [regexp] that classify bytes ([ToLower],
      [Fields], the class \w, case folding) are embedded on the ASCII
      range, where Go takes its byte-wise path; bytes above 127 are left as
      they are.  The general statements on tokens are made on the results
      of these helpers and their proofs do not look inside them.
    - A run-time panic is the result [None]; every function that can reach
      a panicking operation returns an [option].
    - [styleMap] is a [gmap] filled by [init] from the [styles] table.
    - Go leaves the order of [range] over a map open: the order in which
      [colorizeKeywords] visits its keywords is a parameter, and the order
      of [MapKeys()] is the order of the entries of a [VMap].
    - A [reflect.Value] is a [Value]: it records whether the value sits in
      a slot of concrete static type or of interface type, because the
      accessors of package [reflect] look at the static kind.  A [Value]
      is a finite tree: a slice or a map that holds itself is not covered.
      Numbers stand for values of types without print methods of their
      own; a float carries its printed text, and a string of a type with a
      print method carries both its content and its printed text. *)

From Stdlib Require Import ZArith Ascii String List DecimalString.
From stdpp Require Import base option list gmap strings.

Local Open Scope string_scope.
Local Open Scope Z_scope.

#[local] Set Warnings "-register-all".
#[local] Arguments String.append : simpl nomatch.

(** ** Bytes and the helpers of package [strings] *)

Module Strings.

Definition ESC : string := String "027"%char "".

Definition byte_eqb (a b : ascii) : bool := Ascii.eqb a b.

(** [unicode.IsSpace] on the ASCII range: tab, LF, VT, FF, CR, space. *)
Definition isSpace (c : ascii) : bool :=
  let n := nat_of_ascii c in
  ((9 <=? n)%nat && (n <=? 13)%nat) || (n =? 32)%nat.

Definition isUpper (c : ascii) : bool :=
  let n := nat_of_ascii c in (65 <=? n)%nat && (n <=? 90)%nat.

Definition lowerByte (c : ascii) : ascii :=
  if isUpper c then ascii_of_nat (nat_of_ascii c + 32) else c.

(** [strings.ToLower] *)
Fixpoint ToLower (s : string) : string :=
  match s with
  | EmptyString => EmptyString
  | String c s' => String (lowerByte c) (ToLower s')
  end.

(** [strings.HasPrefix] *)
Definition HasPrefix (s pre : string) : bool := String.prefix pre s.

(** [strings.Join] *)
Definition Join (elems : list string) (sep : string) : string :=
  String.concat sep elems.

(** [strings.ContainsRune] for a one-byte rune *)
Fixpoint Contains (s : string) (c : ascii) : bool :=
  match s with
  | EmptyString => false
  | String d s' => byte_eqb d c || Contains s' c
  end.

(** [strings.Split] with a one-byte separator: one more segment than
    there are separators, never the empty list. *)
Fixpoint Split (s : string) (sep : ascii) : list string :=
  match s with
  | EmptyString => [EmptyString]
  | String c s' =>
      if byte_eqb c sep then EmptyString :: Split s' sep
      else match Split s' sep with
           | seg :: segs => String c seg :: segs
           | [] => [String c EmptyString]
           end
  end.

(** [strings.Cut]: the text before and after the first separator. *)
Fixpoint Cut (s : string) (sep : ascii) : option (string * string) :=
  match s with
  | EmptyString => None
  | String c s' =>
      if byte_eqb c sep then Some (EmptyString, s')
      else match Cut s' sep with
           | Some (before, after) => Some (String c before, after)
           | None => None
           end
  end.

(** [strings.SplitN(s, sep, 2)] with a one-byte separator. *)
Definition SplitN2 (s : string) (sep : ascii) : list string :=
  match Cut s sep with
  | Some (before, after) => [before; after]
  | None => [s]
  end.

(** [strings.Fields]: the maximal runs of non-space bytes. *)
Fixpoint Fields (s : string) : list string :=
  match s with
  | EmptyString => []
  | String c s' =>
      if isSpace c then Fields s'
      else match s' with
           | EmptyString => [String c EmptyString]
           | String d _ =>
               if isSpace d then String c EmptyString :: Fields s'
               else match Fields s' with
                    | f :: fs => String c f :: fs
                    | [] => [String c EmptyString]
                    end
           end
  end.

Fixpoint TrimLeft (s cutset : string) : string :=
  match s with
  | EmptyString => EmptyString
  | String c s' => if Contains cutset c then TrimLeft s' cutset else s
  end.

Fixpoint TrimRight (s cutset : string) : string :=
  match s with
  | EmptyString => EmptyString
  | String c s' =>
      match TrimRight s' cutset with
      | EmptyString => if Contains cutset c then EmptyString
                       else String c EmptyString
      | r => String c r
      end
  end.

(** [strings.Trim] *)
Definition Trim (s cutset : string) : string :=
  TrimRight (TrimLeft s cutset) cutset.

End Strings.
Import Strings.

(** ** Slices *)

(** [s[:hi]] panics when [hi] is negative or past the end of the slice. *)
Definition sliceTo {A} (s : list A) (hi : Z) : option (list A) :=
  if (hi <? 0) || (Z.of_nat (length s) <? hi) then None
  else Some (take (Z.to_nat hi) s).

Definition len {A} (s : list A) : Z := Z.of_nat (length s).

(** ** The style registry *)

Record Style := mkStyle { Name : string; Code : string; IsColor : bool }.

Definition styles : list Style :=
  [ mkStyle "reset" "0" false;
    mkStyle "unstyle" "22" false;
    mkStyle "b" "1" false;
    mkStyle "i" "3" false;
    mkStyle "u" "4" false;
    mkStyle "s" "9" false;
    mkStyle "blink" "5" false;
    mkStyle "x" "7" false;
    mkStyle "white" "97" true;
    mkStyle "gray" "37" true;
    mkStyle "red" "31" true;
    mkStyle "green" "32" true;
    mkStyle "cyan" "36" true;
    mkStyle "blue" "34" true;
    mkStyle "yellow" "33" true ].

(** [init]: the loop [styleMap[style.Name] = style] over [styles]. *)
Definition init (m : gmap string Style) : gmap string Style :=
  foldl (fun m style => <[Name style := style]> m) m styles.

Definition styleMap : gmap string Style := init ∅.

Definition getStyle (name : string) : string :=
  match styleMap !! name with
  | Some style => ESC +:+ "[" +:+ Code style +:+ "m"
  | None => ESC +:+ "[37m"
  end.

(** ** The tag parser *)

Definition applyStyling (str : string) (stack : list string) : string :=
  ESC +:+ "[" +:+ Join stack ";" +:+ "m" +:+ str.

(** One iteration of the loop over [strings.Fields(tags)]. *)
Definition applyTag (stack : list string) (tag : string)
  : option (list string) :=
  let tag := ToLower (Trim tag "[]") in
  if HasPrefix tag "/" then
    if 0 <? len stack then sliceTo stack (len stack - 1) else Some stack
  else
    match styleMap !! tag with
    | Some style => Some (stack ++ [Code style])%list
    | None => Some stack
    end.

Fixpoint applyTags (stack : list string) (tags : list string)
  : option (list string) :=
  match tags with
  | [] => Some stack
  | tag :: tags' => stack' ← applyTag stack tag; applyTags stack' tags'
  end.

(** The body of the loop over [segments] for an index [i > 0]: the new
    stack and the new content of [segments[i]]. *)
Definition parseSegment (stack : list string) (segment : string)
  : option (list string * string) :=
  match SplitN2 segment "]" with
  | [tags; rest] =>
      stack' ← applyTags stack (Fields tags);
      Some (stack', applyStyling rest stack')
  | _ => Some (stack, segment)
  end.

(** The loop [for i, segment := range segments], from index [i] on: the
    stack when the loop ends, and the segments as the loop leaves them. *)
Fixpoint parseLoop (i : nat) (stack : list string) (segments : list string)
  : option (list string * list string) :=
  match segments with
  | [] => Some (stack, [])
  | segment :: segments' =>
      '(stack, segment) ←
        (if (i =? 0)%nat then Some (stack, segment)
         else parseSegment stack segment);
      '(stack, segments') ← parseLoop (S i) stack segments';
      Some (stack, segment :: segments')
  end.

Definition parseTags (str : string) : option string :=
  '(_, segments) ← parseLoop 0 [] (Split str "[");
  Some (Join segments "").

(** ** The keyword highlighter *)

Module Regexp.

(** The class [\w] of RE2: ASCII letters, digits and the underscore. *)
Definition isWordByte (c : ascii) : bool :=
  let n := nat_of_ascii c in
  ((48 <=? n)%nat && (n <=? 57)%nat) || ((65 <=? n)%nat && (n <=? 90)%nat)
  || ((97 <=? n)%nat && (n <=? 122)%nat) || (n =? 95)%nat.

Definition isWord (c : option ascii) : bool :=
  match c with Some c => isWordByte c | None => false end.

Definition first (s : string) : option ascii :=
  match s with EmptyString => None | String c _ => Some c end.

(** [\b] between the byte [prev] and the byte [next]; the two ends of the
    input count as non-word bytes. *)
Definition wordBoundary (prev next : option ascii) : bool :=
  xorb (isWord prev) (isWord next).

(** The literal [keyword] under the flag [i], then the closing [\b]:
    [prev] is the byte before [s]. *)
Fixpoint matchFold (keyword s : string) (prev : option ascii) : bool :=
  match keyword with
  | EmptyString => wordBoundary prev (first s)
  | String k keyword' =>
      match s with
      | EmptyString => false
      | String c s' =>
          byte_eqb (lowerByte c) (lowerByte k) && matchFold keyword' s' (Some c)
      end
  end.

(** Does [(?i)(\bkeyword\b)] match at the start of [s]? *)
Definition matchAt (keyword : string) (prev : option ascii) (s : string)
  : bool :=
  wordBoundary prev (first s) && matchFold keyword s prev.

(** The scan of [ReplaceAllStringFunc]: leftmost matches, none
    overlapping.  [skip] counts the bytes of the last match still to be
    passed over (they are already in the output). *)
Fixpoint replaceFrom (keyword : string) (repl : string -> string)
         (prev : option ascii) (skip : nat) (s : string) : string :=
  match s with
  | EmptyString => EmptyString
  | String c s' =>
      match skip with
      | S skip' => replaceFrom keyword repl (Some c) skip' s'
      | O =>
          if matchAt keyword prev s then
            repl (substring 0 (String.length keyword) s)
            +:+ replaceFrom keyword repl (Some c)
                  (String.length keyword - 1) s'
          else String c (replaceFrom keyword repl (Some c) 0 s')
      end
  end.

(** [regexp.MustCompile(`(?i)(\b` + keyword + `\b)`).ReplaceAllStringFunc]
    for a non-empty [keyword] of word bytes. *)
Definition ReplaceAllStringFunc (keyword input : string)
           (repl : string -> string) : string :=
  replaceFrom keyword repl None 0 input.

End Regexp.

(** The entries of the map literal [keywords] of [colorizeKeywords]. *)
Definition keywords : list (string * string) :=
  [ ("success", getStyle "green");
    ("error", getStyle "red");
    ("warning", getStyle "yellow");
    ("info", getStyle "cyan") ].

(** ** Values seen through package [reflect] *)

(** The values that are not maps, slices or structs. *)
Inductive Leaf :=
| LInt (z : Z)              (* the Int and Uint kinds *)
| LFloat (text : string)    (* Float32, Float64: [text] is what %v prints *)
| LBool (b : bool)
| LString (s : string)
| LNamedString (s printed : string)
    (* a string of a type with a String, Error or Format method: [s] is
       what [v.String()] returns, [printed] what %v prints *)
| LOther (text : string).   (* any other kind: [text] is what %v prints *)

(** A [reflect.Value].  [iface] says that the static type of the slot the
    value was read from is an interface type, so that [Kind()] is
    [Interface] while [Interface()] returns the value held.  [VNil] is a
    nil interface, and also the zero [Value]: what [reflect.ValueOf(nil)]
    returns, and what [MapIndex] returns for a key it does not find.  The
    entries of a map are the keys in the order of [MapKeys()], each with
    what [v.MapIndex(key)] returns for it: the value stored under the key,
    or [VNil] for a key that is not equal to itself (a key that holds a
    NaN), which the lookup misses.  A struct field carries its name and
    whether it is exported. *)
Inductive Value :=
| VNil
| VLeaf (iface : bool) (l : Leaf)
| VSlice (iface : bool) (elems : list Value)
| VMap (iface : bool) (entries : list (Value * Value))
| VStruct (iface : bool) (fields : list (string * bool * Value)).

Definition LF : string := String "010"%char "".
Definition QUOTE : string := String "034"%char "".

(** [fmt.Sprintf("%v", x)] for a leaf. *)
Definition sprintV (l : Leaf) : string :=
  match l with
  | LInt z => NilZero.string_of_int (Z.to_int z)
  | LFloat text => text
  | LBool true => "true"
  | LBool false => "false"
  | LString s => s
  | LNamedString _ printed => printed
  | LOther text => text
  end.

(** [reflect.ValueOf(arg)]: the value an [any] holds, under its own kind. *)
Definition ValueOf (arg : Value) : Value :=
  match arg with
  | VNil => VNil
  | VLeaf _ l => VLeaf false l
  | VSlice _ elems => VSlice false elems
  | VMap _ entries => VMap false entries
  | VStruct _ fields => VStruct false fields
  end.

Section Formatter.

(** Go leaves the order of [range] over a map open.  [rangeKeywords input]
    is the order in which the call [colorizeKeywords(input)] visits the
    entries of [keywords]: a permutation of them. *)
Variable rangeKeywords : string -> list (string * string).

Definition colorizeKeywords (input : string) : string :=
  foldl (fun input '(keyword, colorCode) =>
           Regexp.ReplaceAllStringFunc keyword input
             (fun match_ => colorCode +:+ match_ +:+ ESC +:+ "[0m"))
        input (rangeKeywords input).

(** [formatString(str)], for the text [fmt.Sprintf("%v", str)]. *)
Definition formatString (text : string) : option string :=
  colorizeKeywords <$> parseTags text.

Definition formatBool (b : bool) : option string :=
  if b then parseTags "[green][bold]true[/]"
  else parseTags "[red][bold]false[/]".

Definition formatNumber (l : Leaf) : option string :=
  parseTags ("[cyan][bold]" +:+ sprintV l +:+ "[/]").

(** The loop of [formatMap] over [v.MapKeys()]: [result] is the content
    of the [strings.Builder], and [val] is [v.MapIndex(key)], the zero
    [Value] [VNil] when the lookup misses, on which [formatValue] panics. *)
Definition formatMapLoop (formatValue : Value -> option string) :=
  fix loop (entries : list (Value * Value)) (result : string)
    : option string :=
    match entries with
    | [] => Some result
    | (key, val) :: entries' =>
        left_side ← formatValue key;
        right_side ← formatValue val;
        loop entries'
          (result +:+ "  " +:+ QUOTE +:+ left_side +:+ QUOTE +:+ ": "
           +:+ right_side +:+ "," +:+ LF)
    end.

(** [v.MapKeys()] panics unless [v.Kind()] is [Map]. *)
Definition formatMap (formatValue : Value -> option string) (v : Value)
  : option string :=
  match v with
  | VMap false entries =>
      result ← formatMapLoop formatValue entries ("{" +:+ LF);
      Some (result +:+ "}")
  | _ => None
  end.

(** The loop of [formatSlice] from index [i] on; [n] is [v.Len()]. *)
Definition formatSliceLoop (formatValue : Value -> option string) (n : Z) :=
  fix loop (i : Z) (elems : list Value) (result : string)
    : option string :=
    match elems with
    | [] => Some result
    | element :: elems' =>
        s ← formatValue element;
        loop (i + 1) elems'
          (if i <? n - 1 then result +:+ s +:+ ", " else result +:+ s)
    end.

(** [v.Len()] panics unless [v.Kind()] is [Slice] (or another kind with
    a length, none of which reaches this function). *)
Definition formatSlice (formatValue : Value -> option string) (v : Value)
  : option string :=
  match v with
  | VSlice false elems =>
      result ← formatSliceLoop formatValue (len elems) 0 elems "[ ";
      Some (result +:+ " ]")
  | _ => None
  end.

(** The loop of [formatStruct] over the fields.  [v.Field(i)] of an
    unexported field is read-only, and [Interface()], the first thing
    [formatValue] calls, panics on it. *)
Definition formatStructLoop (formatValue : Value -> option string) :=
  fix loop (fields : list (string * bool * Value)) (result : string)
    : option string :=
    match fields with
    | [] => Some result
    | (name, exported, field) :: fields' =>
        name' ← parseTags name;
        s ← (if exported : bool then formatValue field else None);
        loop fields' (result +:+ " " +:+ name' +:+ ": " +:+ s +:+ LF)
    end.

(** [v.NumField()] panics unless [v.Kind()] is [Struct]. *)
Definition formatStruct (formatValue : Value -> option string) (v : Value)
  : option string :=
  match v with
  | VStruct false fields =>
      result ← formatStructLoop formatValue fields ("{" +:+ LF);
      Some (result +:+ "}")
  | _ => None
  end.

(** The switch is on the kind of [reflect.TypeOf(v.Interface())], the
    dynamic type; [reflect.TypeOf(nil)] is nil and its [Kind()] panics. *)
Fixpoint formatValue (v : Value) : option string :=
  match v with
  | VNil => None
  | VLeaf _ (LInt _ as l) | VLeaf _ (LFloat _ as l) => formatNumber l
  | VMap _ _ => formatMap formatValue v
  | VSlice _ _ => formatSlice formatValue v
  | VStruct _ _ => formatStruct formatValue v
  | VLeaf _ (LBool b) => formatBool b
  | VLeaf _ l => formatString (sprintV l)
  end.

(** The text [Print] hands to [fmt.Println], with the newline.  For the
    kind [String] the text formatted is [v.String()], the content. *)
Definition Print (args : list Value) : option string :=
  formattedStrings ←
    mapM (fun arg =>
            match ValueOf arg with
            | VLeaf _ (LString s) | VLeaf _ (LNamedString s _) =>
                formatString s
            | VLeaf _ (LBool b) => formatBool b
            | VLeaf _ (LInt _ as l) | VLeaf _ (LFloat _ as l) => formatNumber l
            | VMap _ _ as v => formatMap formatValue v
            | VSlice _ _ as v => formatSlice formatValue v
            | VStruct _ _ as v => formatStruct formatValue v
            | VLeaf _ (LOther text) => parseTags text
            | VNil => parseTags "<nil>"
            end) args;
  Some (Join formattedStrings " " +:+ LF).

(** The switch in the loop of [Print], for one argument. *)
Definition formatArg (arg : Value) : option string :=
  match ValueOf arg with
  | VLeaf _ (LString s) | VLeaf _ (LNamedString s _) => formatString s
  | VLeaf _ (LBool b) => formatBool b
  | VLeaf _ (LInt _ as l) | VLeaf _ (LFloat _ as l) => formatNumber l
  | VMap _ _ as v => formatMap formatValue v
  | VSlice _ _ as v => formatSlice formatValue v
  | VStruct _ _ as v => formatStruct formatValue v
  | VLeaf _ (LOther text) => parseTags text
  | VNil => parseTags "<nil>"
  end.

(** [Print(append([]any{prefix}, args...)...)] *)
Definition logWithPrefix (prefix : string) (args : list Value)
  : option string :=
  Print (VLeaf false (LString prefix) :: args).

Definition Info (args : list Value) : option string :=
  logWithPrefix "[blue][b]INFO:[/b][/blue]" args.

Definition Success (args : list Value) : option string :=
  logWithPrefix "[green][b]SUCC:[/b][/green]" args.

Definition Error (args : list Value) : option string :=
  logWithPrefix "[red][b]ERRR:[/b][/red]" args.

Definition Warning (args : list Value) : option string :=
  logWithPrefix "[yellow][b]WARN:[/b][/yellow]" args.

Definition Debug (args : list Value) : option string :=
  logWithPrefix "[gray][b]DEBUG:[/b][/gray]" args.

End Formatter.

(** ** Vocabulary of the properties *)

(** The string without any occurrence of the byte [c]. *)
Fixpoint removeByte (s : string) (c : ascii) : string :=
  match s with
  | EmptyString => EmptyString
  | String d s' =>
      if byte_eqb d c then removeByte s' c else String d (removeByte s' c)
  end.

(** No segment after the first holds a ']': no '[' of the string opens a
    region with a header. *)
Definition noHeader (str : string) : Prop :=
  Forall (fun segment => Contains segment "]" = false) (tail (Split str "[")).

(** A token that is neither a close token nor a registered name. *)
Definition ignored (tag : string) : Prop :=
  HasPrefix (ToLower (Trim tag "[]")) "/" = false /\
  styleMap !! ToLower (Trim tag "[]") = None.

(** A text without brackets. *)
Definition bracketFree (text : string) : Prop :=
  Contains text "[" = false /\ Contains text "]" = false.

(** The line [formatMap] writes for an entry, from the formatted key and
    the formatted value. *)
Definition entryLine (rendered : string * string) : string :=
  "  " +:+ QUOTE +:+ rendered.1 +:+ QUOTE +:+ ": " +:+ rendered.2 +:+ "," +:+ LF.

(** The values [formatValue] returns for: no nil interface and no zero
    [Value] (the value of a map entry whose key the lookup misses), no map,
    slice or struct held in an interface slot, no unexported field, at any
    depth. *)
Fixpoint formattable (v : Value) : bool :=
  match v with
  | VNil => false
  | VLeaf _ _ => true
  | VSlice iface elems => negb iface && forallb formattable elems
  | VMap iface entries =>
      negb iface
      && forallb (fun entry => formattable entry.1 && formattable entry.2)
                 entries
  | VStruct iface fields =>
      negb iface
      && forallb (fun field => field.1.2 && formattable field.2) fields
  end.

(** The line [formatStruct] writes for a field, from its name as the tag
    parser leaves it and the formatted value. *)
Definition fieldLine (name rendered : string) : string :=
  " " +:+ name +:+ ": " +:+ rendered +:+ LF.

(** What the tag parser makes of the label [[color][b]text[/b][/color]] of
    a severity logger, for the code of the color. *)
Definition severityLabel (code text : string) : string :=
  ESC +:+ "[" +:+ code +:+ "m" +:+ ESC +:+ "[" +:+ code +:+ ";1m" +:+ text
  +:+ ESC +:+ "[" +:+ code +:+ "m" +:+ ESC +:+ "[m".

(** What [strings.Join(_, " ")] puts between the first formatted argument
    and the others. *)
Definition separator (args : list Value) : string :=
  match args with [] => "" | _ :: _ => " " end.

(** The bytes of a string, to compare strings as sequences. *)
Definition bytes (s : string) : list ascii := list_ascii_of_string s.

(** A text made of word bytes only. *)
Definition isWordText (text : string) : Prop :=
  Forall (fun c => Regexp.isWordByte c = true) (bytes text).

(** The bytes a match of one of the keyword patterns can start at: the
    first letters of the keywords, in either case. *)
Definition startsKeyword (c : ascii) : bool :=
  existsb (fun entry : string * string =>
             match entry.1 with
             | String k _ => byte_eqb (lowerByte c) (lowerByte k)
             | EmptyString => true
             end) keywords.

(** A stack that holds codes of the [styles] table only. *)
Definition registeredCodes (stack : list string) : Prop :=
  Forall (fun code => exists style, In style styles /\ Code style = code)
         stack.

(** Induction on a value and on the values it holds. *)
Section ValueInduction.

Variable P : Value -> Prop.
Hypothesis HNil : P VNil.
Hypothesis HLeaf : forall iface l, P (VLeaf iface l).
Hypothesis HSlice :
  forall iface elems, Forall P elems -> P (VSlice iface elems).
Hypothesis HMap :
  forall iface entries,
    Forall (fun entry => P entry.1 /\ P entry.2) entries ->
    P (VMap iface entries).
Hypothesis HStruct :
  forall iface fields,
    Forall (fun field => P field.2) fields -> P (VStruct iface fields).

Fixpoint Value_nested_ind (v : Value) : P v :=
  match v with
  | VNil => HNil
  | VLeaf iface l => HLeaf iface l
  | VSlice iface elems =>
      HSlice iface elems
        ((fix all (l : list Value) : Forall P l :=
            match l with
            | [] => @List.Forall_nil _ _
            | x :: l' => @List.Forall_cons _ _ x l' (Value_nested_ind x) (all l')
            end) elems)
  | VMap iface entries =>
      HMap iface entries
        ((fix all (l : list (Value * Value))
           : Forall (fun entry => P entry.1 /\ P entry.2) l :=
            match l with
            | [] => @List.Forall_nil _ _
            | (k, x) :: l' =>
                @List.Forall_cons _ _ (k, x) l'
                  (conj (Value_nested_ind k) (Value_nested_ind x)) (all l')
            end) entries)
  | VStruct iface fields =>
      HStruct iface fields
        ((fix all (l : list (string * bool * Value))
           : Forall (fun field => P field.2) l :=
            match l with
            | [] => @List.Forall_nil _ _
            | (name, exported, x) :: l' =>
                @List.Forall_cons _ _ (name, exported, x) l' (Value_nested_ind x)
                  (all l')
            end) fields)
  end.

End ValueInduction.

(** * Properties *)

(** ** Byte strings *)

Section StringFacts.

Lemma append_nil_r (s : string) : s +:+ "" = s.
Proof. induction s as [|c s IH]; simpl; [reflexivity | now rewrite IH]. Qed.

Lemma append_assoc (s t u : string) : (s +:+ t) +:+ u = s +:+ t +:+ u.
Proof. induction s as [|c s IH]; simpl; [reflexivity | now rewrite IH]. Qed.

Lemma Contains_append (s t : string) (c : ascii) :
  Contains (s +:+ t) c = Contains s c || Contains t c.
Proof.
  induction s as [|d s IH]; simpl; [reflexivity |].
  rewrite IH. now rewrite orb_assoc.
Qed.

Lemma Split_cons (s : string) (sep : ascii) :
  exists seg segs, Split s sep = seg :: segs.
Proof.
  induction s as [|c s (seg & segs & IH)]; simpl; [eauto |].
  destruct (byte_eqb c sep); [eauto |]. rewrite IH. eauto.
Qed.

Lemma Split_append (a b : string) (sep : ascii) :
  Split (a +:+ String sep b) sep = (Split a sep ++ Split b sep)%list.
Proof.
  induction a as [|c a IH]; simpl.
  - unfold byte_eqb. now rewrite Ascii.eqb_refl.
  - destruct (byte_eqb c sep); [now rewrite IH |].
    rewrite IH. destruct (Split_cons a sep) as (seg & segs & ->).
    reflexivity.
Qed.

Lemma Split_absent (s : string) (sep : ascii) :
  Contains s sep = false -> Split s sep = [s].
Proof.
  induction s as [|c s IH]; simpl; [reflexivity |].
  intros [Hc Hs]%orb_false_iff. rewrite Hc, (IH Hs). reflexivity.
Qed.

Lemma Cut_absent (s : string) (sep : ascii) :
  Contains s sep = false -> Cut s sep = None.
Proof.
  induction s as [|c s IH]; simpl; [reflexivity |].
  intros [Hc Hs]%orb_false_iff. now rewrite Hc, (IH Hs).
Qed.

Lemma Cut_append (a b : string) (sep : ascii) :
  Contains a sep = false -> Cut (a +:+ String sep b) sep = Some (a, b).
Proof.
  induction a as [|c a IH]; simpl.
  - intros _. unfold byte_eqb. now rewrite Ascii.eqb_refl.
  - intros [Hc Ha]%orb_false_iff. now rewrite Hc, (IH Ha).
Qed.

Lemma SplitN2_absent (s : string) (sep : ascii) :
  Contains s sep = false -> SplitN2 s sep = [s].
Proof. intros H. unfold SplitN2. now rewrite Cut_absent. Qed.

Lemma SplitN2_append (a b : string) (sep : ascii) :
  Contains a sep = false -> SplitN2 (a +:+ String sep b) sep = [a; b].
Proof. intros H. unfold SplitN2. now rewrite Cut_append. Qed.

Lemma Join_cons (s : string) (l : list string) :
  Join (s :: l) "" = s +:+ Join l "".
Proof.
  unfold Join. destruct l as [|t l]; simpl; [now rewrite append_nil_r |].
  reflexivity.
Qed.

Lemma Join_app (l1 l2 : list string) :
  Join (l1 ++ l2) "" = Join l1 "" +:+ Join l2 "".
Proof.
  induction l1 as [|s l1 IH]; [reflexivity |].
  rewrite <- app_comm_cons, !Join_cons, IH. now rewrite append_assoc.
Qed.

Lemma Join_Split (s : string) (sep : ascii) :
  Join (Split s sep) "" = removeByte s sep.
Proof.
  induction s as [|c s IH]; simpl; [reflexivity |].
  destruct (byte_eqb c sep).
  - now rewrite Join_cons, IH.
  - destruct (Split_cons s sep) as (seg & segs & E).
    rewrite E in *. rewrite Join_cons in *. simpl. now rewrite IH.
Qed.

End StringFacts.

(** ** The style registry *)

Section Registry.

Lemma find_append {A} (f : A -> bool) (l1 l2 : list A) :
  find f (l1 ++ l2) =
  match find f l1 with Some x => Some x | None => find f l2 end.
Proof.
  induction l1 as [|x l1 IH]; simpl; [reflexivity |].
  now destruct (f x).
Qed.

(** The loop of [init] leaves, under each name, the last entry of the
    table with that name. *)
Lemma init_lookup (table : list Style) (m : gmap string Style) (name : string) :
  foldl (fun m style => <[Name style := style]> m) m table !! name =
  match find (fun style => bool_decide (Name style = name)) (rev table) with
  | Some style => Some style
  | None => m !! name
  end.
Proof.
  revert m. induction table as [|style table IH]; intros m; [reflexivity |].
  simpl. rewrite IH, find_append.
  destruct (find _ (rev table)); [reflexivity |]. simpl.
  rewrite lookup_insert. case_bool_decide; case_decide; congruence.
Qed.

Lemma styleMap_lookup (name : string) :
  styleMap !! name =
  find (fun style => bool_decide (Name style = name)) (rev styles).
Proof.
  unfold styleMap, init. rewrite init_lookup, lookup_empty.
  now destruct (find _ _).
Qed.

Lemma styleMap_Some (name : string) (style : Style) :
  styleMap !! name = Some style -> In style styles /\ Name style = name.
Proof.
  rewrite styleMap_lookup. intros [Hin Hname]%find_some.
  apply bool_decide_eq_true in Hname. split; [| assumption].
  now apply in_rev.
Qed.

Lemma styles_registered :
  Forall (fun style => styleMap !! Name style = Some style) styles.
Proof. repeat constructor. Qed.

Lemma styles_lowercase :
  Forall (fun style => ToLower (Name style) = Name style) styles.
Proof. repeat constructor. Qed.

Lemma styleMap_None (name : string) :
  (forall style, In style styles -> Name style <> name) ->
  styleMap !! name = None.
Proof.
  intros H. destruct (styleMap !! name) as [style|] eqn:E; [| reflexivity].
  apply styleMap_Some in E as [Hin Hname]. now apply H in Hin.
Qed.

End Registry.

(** ** The tag parser never panics *)

Section ParserTotal.

Lemma sliceTo_pop {A} (stack : list A) :
  0 < len stack ->
  sliceTo stack (len stack - 1) = Some (take (length stack - 1) stack).
Proof.
  unfold sliceTo, len. intros H.
  replace (Z.of_nat (length stack) - 1 <? 0) with false by lia.
  replace (Z.of_nat (length stack) <? Z.of_nat (length stack) - 1)
    with false by lia.
  simpl. f_equal. f_equal. lia.
Qed.

Lemma applyTag_total (stack : list string) (tag : string) :
  is_Some (applyTag stack tag).
Proof.
  unfold applyTag. destruct (HasPrefix _ _).
  - destruct (0 <? len stack) eqn:E; [| eauto].
    apply Z.ltb_lt in E. rewrite (sliceTo_pop _ E). eauto.
  - destruct (styleMap !! _); eauto.
Qed.

Lemma applyTags_total (tags : list string) (stack : list string) :
  is_Some (applyTags stack tags).
Proof.
  revert stack. induction tags as [|tag tags IH]; intros stack; simpl.
  - eauto.
  - destruct (applyTag_total stack tag) as [stack' ->]. simpl. apply IH.
Qed.

Lemma parseSegment_total (stack : list string) (segment : string) :
  is_Some (parseSegment stack segment).
Proof.
  unfold parseSegment, SplitN2. destruct (Cut segment "]") as [[tags rest]|].
  - destruct (applyTags_total (Fields tags) stack) as [stack' ->].
    simpl. eauto.
  - eauto.
Qed.

Lemma parseLoop_total (segments : list string) (i : nat) (stack : list string) :
  is_Some (parseLoop i stack segments).
Proof.
  revert i stack.
  induction segments as [|segment segments IH]; intros i stack; simpl.
  - eauto.
  - destruct (i =? 0)%nat.
    + simpl. destruct (IH (S i) stack) as [[stack' out] ->]. simpl. eauto.
    + destruct (parseSegment_total stack segment) as [[stack1 seg'] ->].
      simpl. destruct (IH (S i) stack1) as [[stack' out] ->]. simpl. eauto.
Qed.

Lemma parseTags_total (str : string) : is_Some (parseTags str).
Proof.
  unfold parseTags.
  destruct (parseLoop_total (Split str "[") 0 []) as [[stack out] ->].
  simpl. eauto.
Qed.

End ParserTotal.

(** ** The loop over the segments *)

Section ParserLoop.

Example parse_red :
  parseTags "[red]x[/]y" = Some (ESC +:+ "[31mx" +:+ ESC +:+ "[my").
Proof. reflexivity. Qed.

Lemma parseLoop_pos (segments : list string) (i j : nat) (stack : list string) :
  parseLoop (S i) stack segments = parseLoop (S j) stack segments.
Proof.
  revert i j stack.
  induction segments as [|segment segments IH]; intros i j stack; simpl.
  - reflexivity.
  - destruct (parseSegment stack segment) as [[stack1 seg']|]; simpl;
      [| reflexivity].
    now rewrite (IH (S i) (S j)).
Qed.

(** The loop over [l1 ++ l2] is the loop over [l1], then the loop over
    [l2] from the stack the first one ends with. *)
Lemma parseLoop_app (l1 l2 : list string) (i : nat) (stack : list string) :
  parseLoop i stack (l1 ++ l2) =
  '(stack1, out1) ← parseLoop i stack l1;
  '(stack2, out2) ← parseLoop (i + length l1) stack1 l2;
  Some (stack2, (out1 ++ out2)%list).
Proof.
  revert i stack. induction l1 as [|segment l1 IH]; intros i stack; simpl.
  - rewrite Nat.add_0_r. destruct (parseLoop i stack l2) as [[? ?]|];
      reflexivity.
  - destruct (if (i =? 0)%nat then _ else _) as [[stack1 seg']|]; simpl;
      [| reflexivity].
    rewrite IH. replace (S i + length l1)%nat with (i + S (length l1))%nat
      by lia.
    destruct (parseLoop (S i) stack1 l1) as [[stack2 out1]|]; simpl;
      [| reflexivity].
    destruct (parseLoop _ stack2 l2) as [[stack3 out2]|]; reflexivity.
Qed.

Lemma parseSegment_absent (stack : list string) (segment : string) :
  Contains segment "]" = false ->
  parseSegment stack segment = Some (stack, segment).
Proof. intros H. unfold parseSegment. now rewrite SplitN2_absent. Qed.

Lemma parseSegment_header (stack : list string) (tags rest : string) :
  Contains tags "]" = false ->
  parseSegment stack (tags +:+ "]" +:+ rest) =
  stack' ← applyTags stack (Fields tags);
  Some (stack', applyStyling rest stack').
Proof.
  intros H. unfold parseSegment.
  change (tags +:+ "]" +:+ rest) with (tags +:+ String "]" rest).
  now rewrite SplitN2_append.
Qed.

(** Segments without a closing bracket go through the loop untouched. *)
Lemma parseLoop_absent (segments : list string) (i : nat) (stack : list string) :
  Forall (fun segment => Contains segment "]" = false) segments ->
  parseLoop (S i) stack segments = Some (stack, segments).
Proof.
  intros H. revert i. induction H as [|segment segments Hs _ IH]; intros i.
  - reflexivity.
  - simpl. rewrite (parseSegment_absent _ _ Hs). simpl.
    now rewrite IH.
Qed.

(** The first segment is skipped whatever it holds. *)
Lemma parseLoop_first (segment : string) (segments : list string) :
  parseLoop 0 [] (segment :: segments) =
  '(stack, out) ← parseLoop 1 [] segments; Some (stack, segment :: out).
Proof. reflexivity. Qed.

End ParserLoop.

(** ** C1: a segment without a closing bracket *)

(** C1, as stated: a segment introduced by '[' that holds no ']' leaves no
    text in the output, which is then the output for the input without the
    segment.  This fails: [parseTags "a[bc"] is ["abc"], not ["a"]. *)
Lemma C1_segment_dropped_counterexample :
  ~ (forall pre segment : string,
        Contains segment "]" = false -> Contains segment "[" = false ->
        parseTags (pre +:+ "[" +:+ segment) = parseTags pre).
Proof.
  intros H. specialize (H "a" "bc" eq_refl eq_refl).
  vm_compute in H. discriminate H.
Qed.

(** C1, amended: a segment introduced by '[' that holds no ']' is copied to
    the output as it is, without the '[' that introduced it, and the output
    around it is what it is without the segment: at the end of the input,
    and before a further '['. *)
Theorem C1_segment_without_bracket_kept (pre segment : string) :
  Contains segment "]" = false -> Contains segment "[" = false ->
  exists out1 : string,
    parseTags pre = Some out1 /\
    parseTags (pre +:+ "[" +:+ segment) = Some (out1 +:+ segment) /\
    forall post : string, exists out2 : string,
      parseTags (pre +:+ "[" +:+ post) = Some (out1 +:+ out2) /\
      parseTags (pre +:+ "[" +:+ segment +:+ "[" +:+ post)
      = Some (out1 +:+ segment +:+ out2).
Proof.
  intros Hclose Hopen. unfold parseTags.
  change (pre +:+ "[" +:+ segment) with (pre +:+ String "[" segment).
  rewrite Split_append, (Split_absent _ _ Hopen), parseLoop_app.
  destruct (Split_cons pre "[") as (seg0 & segs & Epre). rewrite Epre.
  destruct (parseLoop_total (seg0 :: segs) 0 []) as [[stack1 o1] E1].
  rewrite E1. simpl length. simpl Nat.add.
  exists (Join o1 ""). split; [reflexivity |]. split.
  - simpl. rewrite (parseSegment_absent _ _ Hclose). simpl.
    now rewrite Join_app.
  - intros post.
    change (pre +:+ "[" +:+ post) with (pre +:+ String "[" post).
    change (pre +:+ "[" +:+ segment +:+ "[" +:+ post)
      with (pre +:+ String "[" (segment +:+ String "[" post)).
    rewrite !Split_append, (Split_absent _ _ Hopen), Epre.
    rewrite !parseLoop_app, E1. simpl length. simpl Nat.add.
    destruct (parseLoop_total (Split post "[") (S (length segs)) stack1)
      as [[stack2 o2] E2].
    exists (Join o2 ""). simpl. rewrite E2. simpl.
    rewrite (parseSegment_absent _ _ Hclose). simpl.
    rewrite (parseLoop_pos _ _ (length segs)), E2. simpl.
    split; [now rewrite Join_app |].
    now rewrite Join_app, !Join_cons.
Qed.

Lemma C1_segment_without_bracket_kept_witness :
  exists out1 : string,
    parseTags "a[red]b" = Some out1 /\
    parseTags ("a[red]b" +:+ "[" +:+ "cd") = Some (out1 +:+ "cd") /\
    forall post : string, exists out2 : string,
      parseTags ("a[red]b" +:+ "[" +:+ post) = Some (out1 +:+ out2) /\
      parseTags ("a[red]b" +:+ "[" +:+ "cd" +:+ "[" +:+ post)
      = Some (out1 +:+ "cd" +:+ out2).
Proof.
  apply (C1_segment_without_bracket_kept "a[red]b" "cd"); reflexivity.
Defined.

(** ** C3: parsing the output of the parser again *)

(** C3, as stated: an output of the parser in which no '[' is followed by a
    ']' header comes back from [parseTags] as it is.  This fails for the
    output of [parseTags "[red]x"], whose escape sequence loses its '['. *)
Lemma C3_reparse_intact_counterexample :
  ~ (forall str out : string,
        parseTags str = Some out -> noHeader out -> parseTags out = Some out).
Proof.
  intros H.
  assert (E : parseTags "[red]x" = Some (ESC +:+ "[31mx")) by reflexivity.
  specialize (H _ _ E). vm_compute in H.
  assert (Hno : Forall (fun segment => Contains segment "]" = false) ["31mx"])
    by (repeat constructor).
  specialize (H Hno). discriminate H.
Qed.

(** C3, amended: on a string in which no '[' is followed by a ']' header,
    as the output of the parser for tags without ']' in their text is,
    [parseTags] pushes no style and adds no escape prefix, and it removes
    every '[': the result is the input without its '[' bytes. *)
Theorem C3_reparse_strips_brackets (out : string) :
  noHeader out ->
  parseLoop 0 [] (Split out "[") = Some ([], Split out "[") /\
  parseTags out = Some (removeByte out "[").
Proof.
  unfold noHeader, parseTags. intros H.
  destruct (Split_cons out "[") as (seg0 & segs & E).
  assert (L : parseLoop 0 [] (Split out "[") = Some ([], Split out "[")).
  { rewrite E in *. rewrite parseLoop_first. simpl in H.
    now rewrite (parseLoop_absent _ 0 [] H). }
  split; [exact L |]. rewrite L. simpl. now rewrite Join_Split.
Qed.

Lemma C3_reparse_strips_brackets_witness :
  parseTags "[red]x" = Some (ESC +:+ "[31mx") /\
  parseTags (ESC +:+ "[31mx") = Some (ESC +:+ "31mx").
Proof.
  split; [reflexivity |].
  apply (C3_reparse_strips_brackets (ESC +:+ "[31mx")).
  repeat constructor.
Defined.

(** ** C4: nested tags *)

(** C4: in ["[b][red]x[/][/]y"] the run "x" is rendered under the stack
    ["1"; "31"], with the prefix ESC[1;31m, and "y" under the empty stack,
    with the prefix ESC[m; and every segment with a header is rendered as
    ESC[, the codes of the whole stack joined by ';', m, and its text. *)
Theorem C4_prefix_is_whole_stack (stack : list string) (tags rest : string) :
  Contains tags "]" = false ->
  parseTags "[b][red]x[/][/]y"
  = Some (ESC +:+ "[1m" +:+ ESC +:+ "[1;31mx" +:+ ESC +:+ "[1m" +:+ ESC +:+ "[my") /\
  parseLoop 1 [] ["b]"; "red]x"]
  = Some (["1"; "31"], [ESC +:+ "[1m"; ESC +:+ "[1;31mx"]) /\
  parseLoop 1 ["1"; "31"] ["/]"; "/]y"]
  = Some ([], [ESC +:+ "[1m"; ESC +:+ "[my"]) /\
  exists stack' : list string,
    applyTags stack (Fields tags) = Some stack' /\
    parseSegment stack (tags +:+ "]" +:+ rest)
    = Some (stack', ESC +:+ "[" +:+ Join stack' ";" +:+ "m" +:+ rest).
Proof.
  intros H. repeat (split; [reflexivity |]).
  destruct (applyTags_total (Fields tags) stack) as [stack' E].
  exists stack'. split; [exact E |].
  rewrite (parseSegment_header _ _ _ H), E. reflexivity.
Qed.

Lemma C4_prefix_is_whole_stack_witness :
  parseSegment ["1"] ("red" +:+ "]" +:+ "x")
  = Some (["1"; "31"], ESC +:+ "[1;31mx").
Proof.
  destruct (C4_prefix_is_whole_stack ["1"] "red" "x" eq_refl)
    as (_ & _ & _ & stack' & E & ->).
  vm_compute in E. injection E as <-. reflexivity.
Defined.

(** ** C5: a close token on the empty stack *)

(** C5: [parseTags] returns for every input, no token makes the pop fall
    below the empty stack, a close token removes the last code of the stack
    and leaves the empty stack empty, and [parseTags "[/]text"] is "text"
    under the prefix of the empty stack. *)
Theorem C5_close_on_empty_stack (stack : list string) (tag : string) :
  HasPrefix (ToLower (Trim tag "[]")) "/" = true ->
  (forall str : string, exists out : string, parseTags str = Some out) /\
  (forall (stack0 : list string) (tag0 : string),
      exists stack', applyTag stack0 tag0 = Some stack') /\
  applyTag stack tag = Some (take (length stack - 1) stack) /\
  applyTag [] tag = Some [] /\
  parseTags "[/]text" = Some (ESC +:+ "[m" +:+ "text").
Proof.
  intros H. split; [intros str; apply parseTags_total |].
  split; [intros stack0 tag0; apply applyTag_total |].
  assert (P : forall st, applyTag st tag = Some (take (length st - 1) st)).
  { intros st. unfold applyTag. rewrite H.
    destruct (0 <? len st) eqn:E.
    - apply Z.ltb_lt in E. now rewrite (sliceTo_pop _ E).
    - apply Z.ltb_ge in E. unfold len in E.
      destruct st; [reflexivity | simpl in E; lia]. }
  split; [apply P |]. split; [apply (P []) | reflexivity].
Qed.

Lemma C5_close_on_empty_stack_witness :
  applyTag ["1"; "31"] "/red" = Some ["1"] /\ applyTag [] "/red" = Some [].
Proof.
  destruct (C5_close_on_empty_stack ["1"; "31"] "/red" eq_refl)
    as (_ & _ & E1 & E2 & _).
  split; [exact E1 | exact E2].
Defined.

(** ** C6: unknown tokens *)

Lemma applyTag_ignored (stack : list string) (tag : string) :
  ignored tag -> applyTag stack tag = Some stack.
Proof. intros [H1 H2]. unfold applyTag. now rewrite H1, H2. Qed.

Lemma applyTags_ignored (stack : list string) (tags : list string) :
  Forall ignored tags -> applyTags stack tags = Some stack.
Proof.
  induction 1 as [|tag tags Htag _ IH]; simpl; [reflexivity |].
  now rewrite (applyTag_ignored _ _ Htag).
Qed.

(** C6: a token that does not begin with '/' and is no registered name
    leaves the stack as it is and raises nothing; a header made of such
    tokens is not echoed, its segment is the text under the prefix of the
    unchanged stack; and [parseTags "[nonexistent]text"] is "text" under
    the prefix of the empty stack. *)
Theorem C6_unknown_token_ignored (stack : list string) (tags rest : string) :
  Contains tags "]" = false ->
  Forall ignored (Fields tags) ->
  (forall (stack0 : list string) (tag : string),
      In tag (Fields tags) -> applyTag stack0 tag = Some stack0) /\
  parseSegment stack (tags +:+ "]" +:+ rest)
  = Some (stack, ESC +:+ "[" +:+ Join stack ";" +:+ "m" +:+ rest) /\
  parseTags "[nonexistent]text" = Some (ESC +:+ "[m" +:+ "text").
Proof.
  intros Hclose Hign. split.
  - intros stack0 tag Hin. apply applyTag_ignored.
    rewrite List.Forall_forall in Hign. now apply Hign.
  - split; [| reflexivity].
    rewrite (parseSegment_header _ _ _ Hclose).
    now rewrite (applyTags_ignored _ _ Hign).
Qed.

Lemma C6_unknown_token_ignored_witness :
  applyTag ["31"] "bold" = Some ["31"] /\
  parseSegment ["31"] ("nonexistent bold" +:+ "]" +:+ "text")
  = Some (["31"], ESC +:+ "[31mtext").
Proof.
  assert (H : Forall ignored (Fields "nonexistent bold")).
  { repeat constructor. }
  destruct (C6_unknown_token_ignored ["31"] "nonexistent bold" "text"
              eq_refl H) as (E1 & E2 & _).
  split; [apply E1; simpl; auto | exact E2].
Defined.

(** ** C2: the style lookup *)

(** C2, as stated: a registered name looked up in another letter case
    gives the escape code of the lowercase name.  This fails for "RED":
    [getStyle] compares names exactly and falls back to code 37. *)
Lemma C2_lookup_any_case_counterexample :
  ~ (forall (style : Style) (variant : string),
        In style styles -> ToLower variant = Name style ->
        getStyle variant = getStyle (Name style)).
Proof.
  intros H.
  assert (Hin : In (mkStyle "red" "31" true) styles) by (simpl; tauto).
  specialize (H _ "RED" Hin eq_refl). vm_compute in H. discriminate H.
Qed.

(** C2, amended: [getStyle] gives a registered name, spelled as it is
    registered (in lowercase), the escape code of its style; any other
    letter-case variant of the name is not found and gets the fallback
    code 37. *)
Theorem C2_lookup_is_exact (style : Style) (variant : string) :
  In style styles ->
  ToLower variant = Name style ->
  getStyle (Name style) = ESC +:+ "[" +:+ Code style +:+ "m" /\
  (variant <> Name style -> getStyle variant = ESC +:+ "[37m").
Proof.
  intros Hin Hlow. split.
  - pose proof styles_registered as R. rewrite List.Forall_forall in R.
    unfold getStyle. now rewrite (R _ Hin).
  - intros Hne. unfold getStyle. rewrite styleMap_None; [reflexivity |].
    intros other Hother E.
    pose proof styles_lowercase as L. rewrite List.Forall_forall in L.
    apply Hne. rewrite <- Hlow, <- E. symmetry. now apply L.
Qed.

Lemma C2_lookup_is_exact_witness :
  getStyle "red" = ESC +:+ "[31m" /\ getStyle "Red" = ESC +:+ "[37m".
Proof.
  assert (Hin : In (mkStyle "red" "31" true) styles) by (simpl; tauto).
  destruct (C2_lookup_is_exact (mkStyle "red" "31" true) "Red" Hin eq_refl)
    as [E1 E2].
  split; [exact E1 | apply E2; discriminate].
Defined.

(** ** C7: keyword highlighting *)

(** A result that every order of the four passes gives is the result of
    [colorizeKeywords]. *)
Lemma colorizeKeywords_any_order
      (rangeKeywords : string -> list (string * string))
      (input expected : string) :
  forallb (fun order =>
             String.eqb (colorizeKeywords (fun _ => order) input) expected)
          (permutations keywords) = true ->
  rangeKeywords input ≡ₚ keywords ->
  colorizeKeywords rangeKeywords input = expected.
Proof.
  intros Hall Hperm. symmetry in Hperm.
  apply permutations_Permutation in Hperm.
  rewrite forallb_forall in Hall.
  apply list_elem_of_In in Hperm. apply Hall in Hperm.
  now apply String.eqb_eq in Hperm.
Qed.

(** C7: whatever the order of the four passes, formatting the text
    "Operation success" wraps the word "success", in either letter case,
    in ESC[32m, the escape code of green, and the reset ESC[0m, with
    "Operation " as it was; and "successful" comes back as it was. *)
Theorem C7_keyword_whole_word
        (rangeKeywords : string -> list (string * string)) :
  (forall input, rangeKeywords input ≡ₚ keywords) ->
  getStyle "green" = ESC +:+ "[32m" /\
  formatString rangeKeywords "Operation success"
  = Some ("Operation " +:+ ESC +:+ "[32m" +:+ "success" +:+ ESC +:+ "[0m") /\
  formatString rangeKeywords "Operation SUCCESS"
  = Some ("Operation " +:+ ESC +:+ "[32m" +:+ "SUCCESS" +:+ ESC +:+ "[0m") /\
  formatString rangeKeywords "successful" = Some "successful".
Proof.
  intros Hperm. split; [reflexivity |].
  unfold formatString.
  repeat split.
  - change (parseTags "Operation success") with (Some "Operation success").
    simpl fmap. f_equal.
    apply colorizeKeywords_any_order; [| apply Hperm].
    vm_compute. reflexivity.
  - change (parseTags "Operation SUCCESS") with (Some "Operation SUCCESS").
    simpl fmap. f_equal.
    apply colorizeKeywords_any_order; [| apply Hperm].
    vm_compute. reflexivity.
  - change (parseTags "successful") with (Some "successful").
    simpl fmap. f_equal.
    apply colorizeKeywords_any_order; [| apply Hperm].
    vm_compute. reflexivity.
Qed.

Lemma C7_keyword_whole_word_witness :
  formatString (fun _ => keywords) "Operation success"
  = Some ("Operation " +:+ ESC +:+ "[32m" +:+ "success" +:+ ESC +:+ "[0m").
Proof.
  apply (C7_keyword_whole_word (fun _ => keywords)).
  intros input. reflexivity.
Defined.

(** ** C10: the decoration of numbers and booleans *)

Section Decoration.

Lemma uint_bracketFree (d : Decimal.uint) :
  bracketFree (NilEmpty.string_of_uint d).
Proof. induction d; simpl; split; try reflexivity; apply IHd. Qed.

(** A decimal integer holds digits and a sign, and no bracket. *)
Lemma int_bracketFree (z : Z) : bracketFree (sprintV (LInt z)).
Proof.
  unfold sprintV, NilZero.string_of_int, NilZero.string_of_uint.
  destruct (Z.to_int z) as [d | d].
  - destruct d; try (split; reflexivity); apply (uint_bracketFree (_ d)).
  - destruct d; try (split; reflexivity);
      destruct (uint_bracketFree d) as [H1 H2]; split; simpl;
      first [exact H1 | exact H2].
Qed.

Lemma parseLoop_step (i : nat) (stack : list string) (segment : string)
      (segments : list string) :
  parseLoop (S i) stack (segment :: segments) =
  '(stack1, segment') ← parseSegment stack segment;
  '(stack2, out) ← parseLoop (S (S i)) stack1 segments;
  Some (stack2, segment' :: out).
Proof. reflexivity. Qed.

(** The tagged text of [formatNumber], for a text without brackets. *)
Lemma parseTags_number (text : string) :
  bracketFree text ->
  parseTags ("[cyan][bold]" +:+ text +:+ "[/]")
  = Some (ESC +:+ "[36m" +:+ ESC +:+ "[36m" +:+ text +:+ ESC +:+ "[m").
Proof.
  intros [Hopen Hclose]. unfold parseTags.
  change ("[cyan][bold]" +:+ text +:+ "[/]")
    with ("" +:+ String "[" ("cyan]" +:+ String "["
            (("bold" +:+ "]" +:+ text) +:+ String "[" "/]"))) at 1.
  rewrite !Split_append.
  rewrite (Split_absent ("bold" +:+ "]" +:+ text) "[")
    by (rewrite Contains_append; simpl; exact Hopen).
  change (Split "" "[") with [""]. change (Split "cyan]" "[") with ["cyan]"].
  change (Split "/]" "[") with ["/]"].
  cbn [app]. rewrite parseLoop_first, parseLoop_step.
  change (parseSegment [] "cyan]") with (Some (["36"], ESC +:+ "[36m")).
  cbn [mbind option_bind]. rewrite parseLoop_step.
  rewrite (parseSegment_header ["36"] "bold" text eq_refl).
  change (applyTags ["36"] (Fields "bold")) with (Some ["36"]).
  cbn [mbind option_bind]. rewrite parseLoop_step.
  change (parseSegment ["36"] "/]") with (Some (@nil string, ESC +:+ "[m")).
  cbn [mbind option_bind parseLoop]. unfold applyStyling.
  rewrite !Join_cons. cbn [Join String.concat].
  rewrite append_nil_r. reflexivity.
Qed.

End Decoration.

(** C10: "bold" is no registered name ("b" is, with code 1), so the token
    [bold] of the decoration is ignored: an integer, and any number whose
    default text holds no bracket, comes out under code 36 alone, [true]
    under code 32 alone and [false] under code 31 alone; code 1 is in no
    escape sequence of the output. *)
Theorem C10_bold_token_ignored (z : Z) (text : string) :
  bracketFree text ->
  styleMap !! "bold" = None /\
  styleMap !! "b" = Some (mkStyle "b" "1" false) /\
  formatNumber (LInt z)
  = Some (ESC +:+ "[36m" +:+ ESC +:+ "[36m" +:+ sprintV (LInt z) +:+ ESC +:+ "[m") /\
  formatNumber (LFloat text)
  = Some (ESC +:+ "[36m" +:+ ESC +:+ "[36m" +:+ text +:+ ESC +:+ "[m") /\
  formatBool true
  = Some (ESC +:+ "[32m" +:+ ESC +:+ "[32m" +:+ "true" +:+ ESC +:+ "[m") /\
  formatBool false
  = Some (ESC +:+ "[31m" +:+ ESC +:+ "[31m" +:+ "false" +:+ ESC +:+ "[m").
Proof.
  intros Htext. repeat (split; [reflexivity |]). split; [| split].
  - unfold formatNumber. apply parseTags_number, int_bracketFree.
  - unfold formatNumber. now apply parseTags_number.
  - split; reflexivity.
Qed.

Lemma C10_bold_token_ignored_witness :
  formatNumber (LInt 42)
  = Some (ESC +:+ "[36m" +:+ ESC +:+ "[36m" +:+ "42" +:+ ESC +:+ "[m") /\
  formatNumber (LFloat "1.5e+06")
  = Some (ESC +:+ "[36m" +:+ ESC +:+ "[36m" +:+ "1.5e+06" +:+ ESC +:+ "[m").
Proof.
  assert (H : bracketFree "1.5e+06") by (split; reflexivity).
  destruct (C10_bold_token_ignored 42 "1.5e+06" H) as (_ & _ & E1 & E2 & _).
  split; [exact E1 | exact E2].
Defined.

(** ** C8: maps *)

(** The loop appends one line per entry to the builder. *)
Lemma formatMapLoop_lines
      (formatValue : Value -> option string)
      (entries : list (Value * Value)) (rendered : list (string * string)) :
  Forall2 (fun entry r =>
             formatValue entry.1 = Some r.1 /\ formatValue entry.2 = Some r.2)
          entries rendered ->
  forall result : string,
    formatMapLoop formatValue entries result
    = Some (result +:+ Join (map entryLine rendered) "").
Proof.
  induction 1 as [|[key val] [l r] entries rendered [Hl Hr] _ IH];
    intros result.
  - simpl. now rewrite append_nil_r.
  - simpl in Hl, Hr. cbn [formatMapLoop]. rewrite Hl, Hr.
    cbn [mbind option_bind]. fold (formatMapLoop formatValue).
    rewrite IH. f_equal. cbn [map]. rewrite Join_cons.
    unfold entryLine. cbn [fst snd]. now rewrite !append_assoc.
Qed.

(** A map in a slot of its own type whose keys and values the formatter
    renders, every key found by the lookup, comes out as the opening brace
    and a newline, one line per entry in the order of [MapKeys()], each
    made of two spaces, the formatted key in quotes, a colon, a space, the
    formatted value, a comma and a newline, the last line like the others,
    and the closing brace. *)
Theorem formatMap_one_line_per_entry
        (rangeKeywords : string -> list (string * string))
        (entries : list (Value * Value)) (rendered : list (string * string)) :
  Forall2 (fun entry r =>
             formatValue rangeKeywords entry.1 = Some r.1 /\
             formatValue rangeKeywords entry.2 = Some r.2)
          entries rendered ->
  formatValue rangeKeywords (VMap false entries)
  = Some ("{" +:+ LF +:+ Join (map entryLine rendered) "" +:+ "}") /\
  length (map entryLine rendered) = length entries.
Proof.
  intros H. split.
  - cbn [formatValue formatMap].
    rewrite (formatMapLoop_lines _ _ _ H). reflexivity.
  - rewrite length_map. symmetry. exact (Forall2_length _ _ _ H).
Qed.

Lemma formatMap_one_line_per_entry_witness :
  formatValue (fun _ => keywords)
    (VMap false [(VLeaf false (LString "a"), VLeaf true (LInt 3));
                 (VLeaf false (LString "b"), VLeaf false (LBool true))])
  = Some ("{" +:+ LF
          +:+ "  " +:+ QUOTE +:+ "a" +:+ QUOTE +:+ ": "
          +:+ ESC +:+ "[36m" +:+ ESC +:+ "[36m3" +:+ ESC +:+ "[m," +:+ LF
          +:+ "  " +:+ QUOTE +:+ "b" +:+ QUOTE +:+ ": "
          +:+ ESC +:+ "[32m" +:+ ESC +:+ "[32mtrue" +:+ ESC +:+ "[m," +:+ LF
          +:+ "}").
Proof.
  apply (formatMap_one_line_per_entry (fun _ => keywords)
           [(VLeaf false (LString "a"), VLeaf true (LInt 3));
            (VLeaf false (LString "b"), VLeaf false (LBool true))]
           [("a", ESC +:+ "[36m" +:+ ESC +:+ "[36m3" +:+ ESC +:+ "[m");
            ("b", ESC +:+ "[32m" +:+ ESC +:+ "[32mtrue" +:+ ESC +:+ "[m")]).
  repeat constructor.
Defined.

(** C8 at the failing inputs: a map held in a slot of interface type, as
    the inner map of [map[string]any{"a": map[int]int{7: 1}}], makes the
    formatter panic where the same map in a slot of its own type comes out
    as the brace, its line with the trailing comma and the closing brace;
    and so does a map with a NaN key, whose lookup misses. *)
Theorem C8_interface_held_map_panics
        (rangeKeywords : string -> list (string * string))
        (entries : list (Value * Value)) :
  formatValue rangeKeywords (VMap true entries) = None /\
  Print rangeKeywords
        [VMap false [(VLeaf false (LString "a"),
                      VMap true [(VLeaf false (LInt 7),
                                  VLeaf false (LInt 1))])]]
  = None /\
  formatValue rangeKeywords
              (VMap false [(VLeaf false (LInt 7), VLeaf false (LInt 1))])
  = Some ("{" +:+ LF +:+ "  " +:+ QUOTE
          +:+ ESC +:+ "[36m" +:+ ESC +:+ "[36m7" +:+ ESC +:+ "[m" +:+ QUOTE
          +:+ ": " +:+ ESC +:+ "[36m" +:+ ESC +:+ "[36m1" +:+ ESC +:+ "[m,"
          +:+ LF +:+ "}") /\
  Print rangeKeywords [VMap false [(VLeaf false (LFloat "NaN"), VNil)]]
  = None.
Proof. repeat split. Qed.

(** ** C9: values the formatter cannot render *)

Section FormatterReturns.

Variable rangeKeywords : string -> list (string * string).

Lemma formatString_total (text : string) :
  is_Some (formatString rangeKeywords text).
Proof.
  unfold formatString. destruct (parseTags_total text) as [out ->].
  simpl. eauto.
Qed.

Lemma formatLeaf_total (iface : bool) (l : Leaf) : is_Some (formatValue rangeKeywords (VLeaf iface l)).
Proof.
  destruct l as [z | text | [|] | s | s printed | text]; simpl;
    first [apply parseTags_total | apply formatString_total].
Qed.

Lemma formatSliceLoop_returns (n : Z) (elems : list Value) :
  Forall (fun v => is_Some (formatValue rangeKeywords v) <-> formattable v = true) elems ->
  forall (i : Z) (result : string),
    is_Some (formatSliceLoop (formatValue rangeKeywords) n i elems result)
    <-> forallb formattable elems = true.
Proof.
  induction 1 as [|v elems Hv _ IH]; intros i result; simpl.
  - split; eauto.
  - rewrite andb_true_iff, <- Hv.
    destruct (formatValue rangeKeywords v) as [s|]; simpl.
    + rewrite IH. split; [intros ? | intros [_ ?]]; eauto.
    + split; [intros [? [=]] | intros [[? [=]] _]].
Qed.

Lemma formatMapLoop_returns (entries : list (Value * Value)) :
  Forall (fun entry =>
            (is_Some (formatValue rangeKeywords entry.1) <-> formattable entry.1 = true) /\
            (is_Some (formatValue rangeKeywords entry.2) <-> formattable entry.2 = true)) entries ->
  forall result : string,
    is_Some (formatMapLoop (formatValue rangeKeywords) entries result)
    <-> forallb (fun entry => formattable entry.1 && formattable entry.2)
                entries = true.
Proof.
  induction 1 as [|[key val] entries [Hk Hv] _ IH]; intros result; simpl.
  - split; eauto.
  - simpl in Hk, Hv. rewrite !andb_true_iff, <- Hk, <- Hv.
    destruct (formatValue rangeKeywords key) as [l|]; simpl;
      [| split; [intros [? [=]] | intros [[[? [=]] _] _]]].
    destruct (formatValue rangeKeywords val) as [r|]; simpl;
      [| split; [intros [? [=]] | intros [[_ [? [=]]] _]]].
    rewrite IH. split; [intros ? | intros [_ ?]]; eauto.
Qed.

Lemma formatStructLoop_returns (fields : list (string * bool * Value)) :
  Forall (fun field => is_Some (formatValue rangeKeywords field.2) <-> formattable field.2 = true)
         fields ->
  forall result : string,
    is_Some (formatStructLoop (formatValue rangeKeywords) fields result)
    <-> forallb (fun field => field.1.2 && formattable field.2) fields = true.
Proof.
  induction 1 as [|[[name exported] val] fields Hv _ IH]; intros result; simpl.
  - split; eauto.
  - simpl in Hv. destruct (parseTags_total name) as [name' ->]. simpl.
    rewrite !andb_true_iff, <- Hv. destruct exported; simpl;
      [| split; [intros [? [=]] | intros [[[=] _] _]]].
    destruct (formatValue rangeKeywords val) as [s|]; simpl;
      [| split; [intros [? [=]] | intros [[_ [? [=]]] _]]].
    rewrite IH. split; [intros ? | intros [_ ?]]; eauto.
Qed.

Lemma bind_Some_total {A B} (o : option A) (f : A -> B) :
  is_Some (x ← o; Some (f x)) <-> is_Some o.
Proof. destruct o; simpl; split; eauto; intros [? [=]]. Qed.

(** On a value of finite depth [formatValue] returns exactly when the
    value is [formattable], and panics otherwise. *)
Lemma formatValue_returns_iff (v : Value) :
  is_Some (formatValue rangeKeywords v) <-> formattable v = true.
Proof.
  induction v as [| iface l | iface elems IH | iface entries IH
                  | iface fields IH] using Value_nested_ind.
  - simpl. split; [intros [? [=]] | intros [=]].
  - split; [reflexivity | intros _; apply formatLeaf_total].
  - cbn [formatValue formattable formatSlice]. destruct iface; simpl negb.
    + split; [intros [? [=]] | intros [=]].
    + rewrite bind_Some_total, andb_true_l.
      now apply formatSliceLoop_returns.
  - cbn [formatValue formattable formatMap]. destruct iface; simpl negb.
    + split; [intros [? [=]] | intros [=]].
    + rewrite bind_Some_total, andb_true_l.
      now apply formatMapLoop_returns.
  - cbn [formatValue formattable formatStruct]. destruct iface; simpl negb.
    + split; [intros [? [=]] | intros [=]].
    + rewrite bind_Some_total, andb_true_l.
      now apply formatStructLoop_returns.
Qed.

End FormatterReturns.

(** C9 at the failing input: a nil interface in a slot makes the formatter
    panic; so does a slice held in a slot of interface type, the element of
    [[]any{[]int{1}}], although the same slice in a slot of its own type is
    rendered; so does a struct with an unexported field. *)
Theorem C9_interface_held_slice_panics
        (rangeKeywords : string -> list (string * string)) :
  formatValue rangeKeywords VNil = None /\
  formatValue rangeKeywords (VSlice false [VNil]) = None /\
  formatValue rangeKeywords (VSlice true [VLeaf false (LInt 1)]) = None /\
  Print rangeKeywords [VSlice false [VSlice true [VLeaf false (LInt 1)]]]
  = None /\
  Print rangeKeywords [VSlice false [VSlice false [VLeaf false (LInt 1)]]]
  = Some ("[ [ " +:+ ESC +:+ "[36m" +:+ ESC +:+ "[36m1" +:+ ESC +:+ "[m ] ]"
          +:+ LF) /\
  Print rangeKeywords
        [VMap false [(VLeaf false (LString "a"),
                      VMap true [(VLeaf false (LString "b"),
                                  VLeaf true (LInt 1))])]]
  = None /\
  Print rangeKeywords [VStruct false [("a", false, VLeaf false (LInt 1))]]
  = None /\
  Print rangeKeywords [VNil] = Some ("<nil>" +:+ LF).
Proof. repeat split. Qed.

(** * Further properties of the code *)

(** ** The registry and the lookup *)

(** [init] registers the table and nothing else: a name is bound to a style
    exactly when the style is an entry of [styles] under that name. *)
Theorem styleMap_lookup_iff (name : string) (style : Style) :
  styleMap !! name = Some style <-> In style styles /\ Name style = name.
Proof.
  split; [apply styleMap_Some |]. intros [Hin <-].
  pose proof styles_registered as R. rewrite List.Forall_forall in R.
  now apply R.
Qed.

(** [getStyle] always returns the escape sequence of a code of the table:
    the code of the name when it is registered, and otherwise code 37,
    which is the code of gray. *)
Theorem getStyle_unregistered_is_gray (name : string) :
  (forall style, In style styles -> Name style <> name) ->
  getStyle name = getStyle "gray" /\
  getStyle name = ESC +:+ "[37m" /\
  forall other : string, exists style,
    In style styles /\ getStyle other = ESC +:+ "[" +:+ Code style +:+ "m".
Proof.
  intros H. unfold getStyle at 1 3. rewrite (styleMap_None _ H).
  repeat split. intros other. unfold getStyle.
  destruct (styleMap !! other) as [style|] eqn:E.
  - apply styleMap_Some in E as [Hin _]. eauto.
  - exists (mkStyle "gray" "37" true). split; [simpl; tauto | reflexivity].
Qed.

Lemma getStyle_unregistered_is_gray_witness :
  getStyle "bold" = ESC +:+ "[37m".
Proof.
  apply (getStyle_unregistered_is_gray "bold").
  intros style Hin. simpl in Hin.
  repeat (destruct Hin as [<- | Hin]; [discriminate |]). destruct Hin.
Defined.

(** ** Text outside tags *)

Lemma parseLoop_out_first (segment : string) (segments : list string) :
  exists stack out,
    parseLoop 0 [] (segment :: segments) = Some (stack, segment :: out).
Proof.
  rewrite parseLoop_first.
  destruct (parseLoop_total segments 1 []) as [[stack out] ->].
  simpl. eauto.
Qed.

Lemma parseTags_plain (str : string) :
  Contains str "[" = false -> parseTags str = Some str.
Proof. intros H. unfold parseTags. now rewrite (Split_absent _ _ H). Qed.

(** A string without '[' comes back as it is, and the text before the
    first '[' of a string opens the output unchanged. *)
Theorem parseTags_leading_text (pre rest : string) :
  Contains pre "[" = false ->
  parseTags pre = Some pre /\
  exists out : string, parseTags (pre +:+ "[" +:+ rest) = Some (pre +:+ out).
Proof.
  intros H. unfold parseTags. split.
  - now rewrite (Split_absent _ _ H).
  - change (pre +:+ "[" +:+ rest) with (pre +:+ String "[" rest).
    rewrite Split_append, (Split_absent _ _ H). cbn [app].
    destruct (parseLoop_out_first pre (Split rest "[")) as (stack & out & ->).
    exists (Join out ""). cbn [mbind option_bind]. now rewrite Join_cons.
Qed.

Lemma parseTags_leading_text_witness :
  parseTags "plain text" = Some "plain text" /\
  exists out : string,
    parseTags ("plain text" +:+ "[" +:+ "b]bold") = Some ("plain text" +:+ out).
Proof. apply (parseTags_leading_text "plain text" "b]bold"). reflexivity. Defined.

(** ** Tokens *)

Section Tokens.

Lemma lowerByte_cutset (c : ascii) :
  Contains "[]" (lowerByte c) = Contains "[]" c.
Proof. destruct c as [[|] [|] [|] [|] [|] [|] [|] [|]]; reflexivity. Qed.

Lemma lowerByte_space (c : ascii) : isSpace (lowerByte c) = isSpace c.
Proof. destruct c as [[|] [|] [|] [|] [|] [|] [|] [|]]; reflexivity. Qed.

Lemma lowerByte_idem (c : ascii) : lowerByte (lowerByte c) = lowerByte c.
Proof. destruct c as [[|] [|] [|] [|] [|] [|] [|] [|]]; reflexivity. Qed.

Lemma lowerByte_close (c : ascii) :
  byte_eqb (lowerByte c) "]" = byte_eqb c "]".
Proof. destruct c as [[|] [|] [|] [|] [|] [|] [|] [|]]; reflexivity. Qed.

Lemma ToLower_idem (s : string) : ToLower (ToLower s) = ToLower s.
Proof.
  induction s as [|c s IH]; simpl; [reflexivity |].
  now rewrite lowerByte_idem, IH.
Qed.

Lemma ToLower_Contains (s : string) :
  Contains (ToLower s) "]" = Contains s "]".
Proof.
  induction s as [|c s IH]; simpl; [reflexivity |].
  now rewrite lowerByte_close, IH.
Qed.

Lemma ToLower_TrimLeft (s : string) :
  TrimLeft (ToLower s) "[]" = ToLower (TrimLeft s "[]").
Proof.
  induction s as [|c s IH]; [reflexivity |].
  cbn [ToLower TrimLeft]. rewrite lowerByte_cutset.
  destruct (Contains "[]" c); [exact IH | reflexivity].
Qed.

Lemma ToLower_TrimRight (s : string) :
  TrimRight (ToLower s) "[]" = ToLower (TrimRight s "[]").
Proof.
  induction s as [|c s IH]; [reflexivity |].
  cbn [ToLower TrimRight]. rewrite IH, lowerByte_cutset.
  destruct (TrimRight s "[]"); [| reflexivity].
  cbn [ToLower]. destruct (Contains "[]" c); reflexivity.
Qed.

Lemma ToLower_Trim (s : string) :
  Trim (ToLower s) "[]" = ToLower (Trim s "[]").
Proof. unfold Trim. now rewrite ToLower_TrimLeft, ToLower_TrimRight. Qed.

Lemma ToLower_Fields (s : string) :
  Fields (ToLower s) = map ToLower (Fields s).
Proof.
  induction s as [|c s IH]; [reflexivity |].
  cbn [ToLower Fields]. rewrite lowerByte_space.
  destruct (isSpace c); [exact IH |].
  destruct s as [|d s]; [reflexivity |].
  cbn [ToLower] in *. rewrite lowerByte_space.
  destruct (isSpace d); [now rewrite IH |].
  rewrite IH. now destruct (Fields (String d s)).
Qed.

Lemma applyTag_ToLower (stack : list string) (tag : string) :
  applyTag stack (ToLower tag) = applyTag stack tag.
Proof. unfold applyTag. now rewrite ToLower_Trim, ToLower_idem. Qed.

Lemma applyTags_ToLower (tags : list string) (stack : list string) :
  applyTags stack (map ToLower tags) = applyTags stack tags.
Proof.
  revert stack. induction tags as [|tag tags IH]; intros stack;
    [reflexivity |].
  cbn [map applyTags]. rewrite applyTag_ToLower.
  destruct (applyTag stack tag); [apply IH | reflexivity].
Qed.

Lemma TrimRight_first (c : ascii) (s : string) :
  Contains "[]" c = false ->
  exists r, TrimRight (String c s) "[]" = String c r.
Proof.
  intros H. cbn [TrimRight]. rewrite H.
  destruct (TrimRight s "[]"); eauto.
Qed.

Lemma Trim_first (c : ascii) (s : string) :
  Contains "[]" c = false ->
  exists r, Trim (String c s) "[]" = String c r.
Proof.
  intros H. unfold Trim. cbn [TrimLeft]. rewrite H.
  now apply TrimRight_first.
Qed.

Lemma applyTag_close (stack : list string) (name : string) :
  applyTag stack (String "/" name)
  = Some (take (length stack - 1) stack).
Proof.
  unfold applyTag.
  destruct (Trim_first "/" name eq_refl) as [r ->].
  assert (P : HasPrefix (ToLower (String "/" r)) "/" = true).
  { unfold HasPrefix. cbn [ToLower]. change (lowerByte "/") with "/"%char.
    cbn [String.prefix]. destruct (ascii_dec "/" "/") as [_ | Hne];
      [now destruct (ToLower r) | now destruct Hne]. }
  rewrite P. destruct (0 <? len stack) eqn:E.
  - apply Z.ltb_lt in E. now rewrite (sliceTo_pop _ E).
  - apply Z.ltb_ge in E. unfold len in E.
    destruct stack; [reflexivity | simpl in E; lia].
Qed.

End Tokens.

(** Tag names are compared without regard to letter case: a token and its
    lowercase form change the stack alike, and so do a header and its
    lowercase form for the whole segment. *)
Theorem parseSegment_case_insensitive
        (stack : list string) (tags rest : string) :
  Contains tags "]" = false ->
  (forall tag : string, applyTag stack (ToLower tag) = applyTag stack tag) /\
  parseSegment stack (ToLower tags +:+ "]" +:+ rest)
  = parseSegment stack (tags +:+ "]" +:+ rest).
Proof.
  intros H. split; [intros tag; apply applyTag_ToLower |].
  rewrite !parseSegment_header;
    [| exact H | now rewrite ToLower_Contains].
  now rewrite ToLower_Fields, applyTags_ToLower.
Qed.

Lemma parseSegment_case_insensitive_witness :
  parseSegment ["1"] ("red u" +:+ "]" +:+ "x")
  = parseSegment ["1"] ("ReD U" +:+ "]" +:+ "x").
Proof.
  apply (parseSegment_case_insensitive ["1"] "ReD U" "x"). reflexivity.
Defined.

(** A token that begins with '/' removes the code pushed last, whatever
    follows the slash: a close tag is not matched with the tag it names,
    and on the empty stack it does nothing. *)
Theorem close_token_pops_last (stack : list string) (code name : string) :
  applyTag (stack ++ [code]) (String "/" name) = Some stack /\
  applyTag [] (String "/" name) = Some [].
Proof.
  rewrite !applyTag_close. split; [| reflexivity].
  rewrite length_app, Nat.add_sub. cbn [length].
  now rewrite take_app_length.
Qed.

(** ** The stack *)

Section Stack.

Lemma applyTag_registered (stack stack' : list string) (tag : string) :
  registeredCodes stack -> applyTag stack tag = Some stack' ->
  registeredCodes stack' /\ (length stack' <= S (length stack))%nat.
Proof.
  unfold registeredCodes, applyTag. intros Hreg.
  destruct (HasPrefix _ _).
  - destruct (0 <? len stack) eqn:E.
    + apply Z.ltb_lt in E. rewrite (sliceTo_pop _ E). intros [= <-].
      split; [now apply Forall_take | rewrite length_take; lia].
    + intros [= <-]. split; [assumption | lia].
  - destruct (styleMap !! _) as [style|] eqn:E.
    + intros [= <-]. apply styleMap_Some in E as [Hin _]. split.
      * apply Forall_app. split; [assumption |]. repeat constructor. eauto.
      * rewrite length_app. simpl. lia.
    + intros [= <-]. split; [assumption | lia].
Qed.

Lemma applyTags_registered (tags : list string) (stack stack' : list string) :
  registeredCodes stack -> applyTags stack tags = Some stack' ->
  registeredCodes stack' /\ (length stack' <= length stack + length tags)%nat.
Proof.
  revert stack. induction tags as [|tag tags IH]; intros stack Hreg; simpl.
  - intros [= <-]. split; [assumption | lia].
  - destruct (applyTag stack tag) as [stack1|] eqn:E; simpl; [| discriminate].
    destruct (applyTag_registered _ _ _ Hreg E) as [Hreg1 Hlen1].
    intros H. destruct (IH _ Hreg1 H) as [Hreg' Hlen']. split; [assumption |].
    lia.
Qed.

Lemma parseLoop_registered (segments : list string) (i : nat)
      (stack stack' : list string) (out : list string) :
  registeredCodes stack -> parseLoop i stack segments = Some (stack', out) ->
  registeredCodes stack' /\ length out = length segments.
Proof.
  revert i stack out.
  induction segments as [|segment segments IH]; intros i stack out Hreg; simpl.
  - intros [= <- <-]. split; [assumption | reflexivity].
  - destruct (if (i =? 0)%nat then _ else _) as [[stack1 seg']|] eqn:E;
      simpl; [| discriminate].
    assert (Hreg1 : registeredCodes stack1).
    { destruct (i =? 0)%nat; [now injection E as <- _ |].
      unfold parseSegment in E.
      destruct (SplitN2 segment "]") as [|tags [|rest [|]]];
        try (now injection E as <- _).
      destruct (applyTags stack (Fields tags)) as [stack2|] eqn:E2;
        simpl in E; [| discriminate]. injection E as <- _.
      now apply (applyTags_registered _ _ _ Hreg E2). }
    destruct (parseLoop (S i) stack1 segments) as [[stack2 out2]|] eqn:E2;
      simpl; [| discriminate].
    intros [= <- <-]. destruct (IH _ _ _ Hreg1 E2) as [Hreg2 Hlen].
    split; [assumption | simpl; now rewrite Hlen].
Qed.

End Stack.

(** The stack only ever holds codes of the [styles] table, and a header of
    [n] tokens makes it at most [n] codes longer; the loop of [parseTags]
    ends with such a stack and keeps the number of segments. *)
Theorem stack_holds_registered_codes (stack : list string) (tags : string) :
  registeredCodes stack ->
  (exists stack' : list string,
      applyTags stack (Fields tags) = Some stack' /\
      registeredCodes stack' /\
      (length stack' <= length stack + length (Fields tags))%nat) /\
  forall str : string, exists stack' out,
      parseLoop 0 [] (Split str "[") = Some (stack', out) /\
      registeredCodes stack' /\
      length out = length (Split str "[").
Proof.
  intros Hreg. split.
  - destruct (applyTags_total (Fields tags) stack) as [stack' E].
    exists stack'. split; [exact E |].
    exact (applyTags_registered _ _ _ Hreg E).
  - intros str.
    destruct (parseLoop_total (Split str "[") 0 []) as [[stack' out] E].
    exists stack', out. split; [exact E |].
    apply (parseLoop_registered _ 0 [] stack' out); [constructor | exact E].
Qed.

Lemma stack_holds_registered_codes_witness :
  exists stack' : list string,
    applyTags ["1"] (Fields "red nope /x u") = Some stack' /\
    registeredCodes stack' /\
    (length stack' <= length ["1"] + length (Fields "red nope /x u"))%nat.
Proof.
  apply (stack_holds_registered_codes ["1"] "red nope /x u").
  repeat constructor. exists (mkStyle "b" "1" false).
  split; [simpl; tauto | reflexivity].
Defined.

(** ** One tag, and strings put together *)

Section SingleTag.

Lemma lowerByte_open (c : ascii) :
  byte_eqb (lowerByte c) "[" = byte_eqb c "[".
Proof. destruct c as [[|] [|] [|] [|] [|] [|] [|] [|]]; reflexivity. Qed.

Lemma ToLower_Contains_open (s : string) :
  Contains (ToLower s) "[" = Contains s "[".
Proof.
  induction s as [|c s IH]; simpl; [reflexivity |].
  now rewrite lowerByte_open, IH.
Qed.

(** Each name of the table is one token without brackets, and pushes its
    code. *)
Lemma styles_tokens :
  Forall (fun style =>
            Contains (Name style) "[" = false /\
            Contains (Name style) "]" = false /\
            applyTags [] (Fields (Name style)) = Some [Code style])
         styles.
Proof. repeat constructor. Qed.

End SingleTag.

(** A registered name in brackets, in any letter case, followed by text
    without '[': the output is the escape sequence [getStyle] gives for the
    name, then the text. *)
Theorem parseTags_single_tag (style : Style) (variant text : string) :
  In style styles ->
  ToLower variant = Name style ->
  Contains text "[" = false ->
  parseTags ("[" +:+ variant +:+ "]" +:+ text)
  = Some (getStyle (Name style) +:+ text).
Proof.
  intros Hin Hlow Htext.
  pose proof styles_tokens as T. rewrite List.Forall_forall in T.
  destruct (T _ Hin) as (Hopen & Hclose & Hpush).
  pose proof styles_registered as R. rewrite List.Forall_forall in R.
  rewrite <- Hlow in Hopen, Hclose, Hpush.
  rewrite ToLower_Contains_open in Hopen. rewrite ToLower_Contains in Hclose.
  rewrite ToLower_Fields, applyTags_ToLower in Hpush.
  unfold parseTags, getStyle. rewrite (R _ Hin).
  change ("[" +:+ variant +:+ "]" +:+ text)
    with ("" +:+ String "[" (variant +:+ "]" +:+ text)).
  rewrite Split_append.
  rewrite (Split_absent (variant +:+ "]" +:+ text) "[")
    by (rewrite Contains_append, Hopen; simpl; exact Htext).
  change (Split "" "[") with [""]. cbn [app].
  rewrite parseLoop_first, parseLoop_step.
  rewrite (parseSegment_header _ _ _ Hclose), Hpush.
  cbn [mbind option_bind parseLoop]. unfold applyStyling.
  rewrite !Join_cons. cbn [Join String.concat].
  rewrite append_nil_r. cbn [String.append]. f_equal.
  rewrite append_assoc. cbn [String.append]. now rewrite append_assoc.
Qed.

Lemma parseTags_single_tag_witness :
  parseTags ("[" +:+ "YeLLow" +:+ "]" +:+ "sun")
  = Some (getStyle "yellow" +:+ "sun").
Proof.
  apply (parseTags_single_tag (mkStyle "yellow" "33" true) "YeLLow" "sun");
    [simpl; tauto | reflexivity | reflexivity].
Defined.

(** When the tags of a string are all closed, so that its loop ends with
    the empty stack, what follows it is rendered as it is on its own: the
    output of the two put together is the two outputs put together. *)
Theorem parseTags_concat_balanced (a b : string) (out : list string) :
  parseLoop 0 [] (Split a "[") = Some ([], out) ->
  exists out_b : string,
    parseTags a = Some (Join out "") /\
    parseTags ("[" +:+ b) = Some out_b /\
    parseTags (a +:+ "[" +:+ b) = Some (Join out "" +:+ out_b).
Proof.
  intros Ha. unfold parseTags.
  change (a +:+ "[" +:+ b) with (a +:+ String "[" b).
  change ("[" +:+ b) with ("" +:+ String "[" b).
  rewrite !Split_append, !parseLoop_app, Ha.
  change (Split "" "[") with [""].
  change (parseLoop 0 [] [""]) with (Some (@nil string, [""])).
  cbn [mbind option_bind length Nat.add].
  destruct (Split_cons a "[") as (seg0 & segs & ->). cbn [length].
  rewrite (parseLoop_pos _ (length segs) 0).
  destruct (parseLoop_total (Split b "[") 1 []) as [[stack' out'] ->].
  cbn [mbind option_bind]. exists (Join out' "").
  split; [reflexivity |].
  split; [cbn [app]; now rewrite Join_cons | now rewrite Join_app].
Qed.

Lemma parseTags_concat_balanced_witness :
  exists out_b : string,
    parseTags "[b]x[/]" = Some (Join [""; ESC +:+ "[1mx"; ESC +:+ "[m"] "") /\
    parseTags ("[" +:+ "red]y") = Some out_b /\
    parseTags ("[b]x[/]" +:+ "[" +:+ "red]y")
    = Some (Join [""; ESC +:+ "[1mx"; ESC +:+ "[m"] "" +:+ out_b).
Proof.
  apply (parseTags_concat_balanced "[b]x[/]" "red]y"
           [""; ESC +:+ "[1mx"; ESC +:+ "[m"]).
  reflexivity.
Defined.

(** ** Slices and structs *)

Section Composites.

Variable formatValue' : Value -> option string.

Lemma formatSliceLoop_join (elems : list Value) (rendered : list string) :
  Forall2 (fun element r => formatValue' element = Some r) elems rendered ->
  forall (n i : Z) (result : string),
    i + len elems = n ->
    formatSliceLoop formatValue' n i elems result
    = Some (result +:+ Join rendered ", ").
Proof.
  induction 1 as [|element r elems rendered He Hrest IH];
    intros n i result Hn.
  - simpl. now rewrite append_nil_r.
  - cbn [formatSliceLoop]. rewrite He. cbn [mbind option_bind].
    fold (formatSliceLoop formatValue' n).
    assert (Hlen : len (element :: elems) = 1 + len elems)
      by (unfold len; cbn [length]; lia).
    rewrite (IH n (i + 1)) by lia. f_equal.
    pose proof (Forall2_length _ _ _ Hrest) as L.
    destruct (i <? n - 1) eqn:E.
    + apply Z.ltb_lt in E. destruct rendered as [|r' rendered].
      * destruct elems; [unfold len in *; simpl in *; lia | discriminate L].
      * cbn [Join String.concat]. now rewrite !append_assoc.
    + apply Z.ltb_ge in E. destruct elems as [|e' elems].
      * destruct rendered; [| discriminate L]. simpl.
        now rewrite append_nil_r.
      * unfold len in *. cbn [length] in *. lia.
Qed.

Lemma formatStructLoop_lines
      (fields : list (string * bool * Value)) (rendered : list string) :
  Forall2 (fun field r =>
             field.1.2 = true /\ Contains field.1.1 "[" = false /\
             formatValue' field.2 = Some r) fields rendered ->
  forall result : string,
    formatStructLoop formatValue' fields result
    = Some (result
            +:+ Join (zip_with (fun field r => fieldLine field.1.1 r)
                               fields rendered) "").
Proof.
  induction 1 as [|[[name exported] val] r fields rendered (Hexp & Hname & Hval)
                   _ IH]; intros result.
  - simpl. now rewrite append_nil_r.
  - simpl in Hexp, Hname, Hval. subst exported. cbn [formatStructLoop].
    rewrite (parseTags_plain _ Hname), Hval. cbn [mbind option_bind].
    fold (formatStructLoop formatValue'). rewrite IH. f_equal.
    cbn [zip_with]. rewrite Join_cons. unfold fieldLine. cbn [fst snd].
    now rewrite !append_assoc.
Qed.

End Composites.

(** A slice in a slot of its own type whose elements the formatter renders
    comes out as "[ ", the formatted elements in their order with ", "
    between them and none after the last, and " ]"; the empty slice comes
    out as "[  ]". *)
Theorem formatSlice_joins_elements
        (rangeKeywords : string -> list (string * string))
        (elems : list Value) (rendered : list string) :
  Forall2 (fun element r => formatValue rangeKeywords element = Some r)
          elems rendered ->
  formatValue rangeKeywords (VSlice false elems)
  = Some ("[ " +:+ Join rendered ", " +:+ " ]") /\
  formatValue rangeKeywords (VSlice false []) = Some "[  ]".
Proof.
  intros H. split; [| reflexivity]. cbn [formatValue formatSlice].
  rewrite (formatSliceLoop_join _ _ _ H (len elems) 0 "[ ") by lia.
  reflexivity.
Qed.

Lemma formatSlice_joins_elements_witness :
  formatValue (fun _ => keywords)
    (VSlice false [VLeaf false (LString "a"); VLeaf false (LString "b");
                   VLeaf false (LString "c")])
  = Some ("[ " +:+ Join ["a"; "b"; "c"] ", " +:+ " ]").
Proof.
  apply (formatSlice_joins_elements (fun _ => keywords)
           [VLeaf false (LString "a"); VLeaf false (LString "b");
            VLeaf false (LString "c")] ["a"; "b"; "c"]).
  repeat constructor.
Defined.

(** A struct in a slot of its own type, with exported fields whose names
    hold no '[' and whose values the formatter renders, comes out as an
    opening brace and a newline, one line per field in the order of the
    fields, made of a space, the name, a colon, a space, the formatted
    value and a newline, with no comma, and the closing brace. *)
Theorem formatStruct_one_line_per_field
        (rangeKeywords : string -> list (string * string))
        (fields : list (string * bool * Value)) (rendered : list string) :
  Forall2 (fun field r =>
             field.1.2 = true /\ Contains field.1.1 "[" = false /\
             formatValue rangeKeywords field.2 = Some r) fields rendered ->
  formatValue rangeKeywords (VStruct false fields)
  = Some ("{" +:+ LF
          +:+ Join (zip_with (fun field r => fieldLine field.1.1 r)
                             fields rendered) ""
          +:+ "}").
Proof.
  intros H. cbn [formatValue formatStruct].
  rewrite (formatStructLoop_lines _ _ _ H). reflexivity.
Qed.

Lemma formatStruct_one_line_per_field_witness :
  formatValue (fun _ => keywords)
    (VStruct false [("Name", true, VLeaf false (LString "x"));
                    ("Ok", true, VLeaf true (LBool true))])
  = Some ("{" +:+ LF +:+ " Name: x" +:+ LF
          +:+ " Ok: " +:+ ESC +:+ "[32m" +:+ ESC +:+ "[32mtrue" +:+ ESC +:+ "[m"
          +:+ LF +:+ "}").
Proof.
  apply (formatStruct_one_line_per_field (fun _ => keywords)
           [("Name", true, VLeaf false (LString "x"));
            ("Ok", true, VLeaf true (LBool true))]
           ["x"; ESC +:+ "[32m" +:+ ESC +:+ "[32mtrue" +:+ ESC +:+ "[m"]).
  repeat constructor.
Defined.

(** ** [Print] and the severity loggers *)

Section Printing.

Variable rangeKeywords : string -> list (string * string).

Lemma Print_formatArg (args : list Value) :
  Print rangeKeywords args =
  formattedStrings ← mapM (formatArg rangeKeywords) args;
  Some (Join formattedStrings " " +:+ LF).
Proof. reflexivity. Qed.

Lemma Print_cons_Some (arg : Value) (args : list Value) (s out : string) :
  formatArg rangeKeywords arg = Some s ->
  Print rangeKeywords args = Some out ->
  Print rangeKeywords (arg :: args) = Some (s +:+ separator args +:+ out).
Proof.
  rewrite !Print_formatArg. intros Hs. cbn [mapM]. rewrite Hs.
  cbn [mbind option_bind].
  destruct args as [|arg' args]; cbn [mapM separator].
  - intros [= <-]. reflexivity.
  - destruct (formatArg rangeKeywords arg') as [s'|];
      cbn [mbind option_bind]; [| discriminate].
    destruct (mapM (formatArg rangeKeywords) args) as [l|];
      cbn [mbind option_bind mret option_ret]; [| discriminate].
    intros [= <-]. f_equal. cbn [Join String.concat].
    now rewrite !append_assoc.
Qed.

Lemma Print_cons_None (arg : Value) (args : list Value) (s : string) :
  formatArg rangeKeywords arg = Some s ->
  Print rangeKeywords args = None ->
  Print rangeKeywords (arg :: args) = None.
Proof.
  rewrite !Print_formatArg. intros Hs. cbn [mapM]. rewrite Hs.
  cbn [mbind option_bind].
  destruct (mapM (formatArg rangeKeywords) args) as [l|];
    cbn [mbind option_bind]; [discriminate | reflexivity].
Qed.

Lemma logWithPrefix_Print (prefix p : string) (args : list Value) :
  formatString rangeKeywords prefix = Some p ->
  logWithPrefix rangeKeywords prefix args =
  rest ← Print rangeKeywords args; Some (p +:+ separator args +:+ rest).
Proof.
  intros Hp. unfold logWithPrefix.
  destruct (Print rangeKeywords args) as [out|] eqn:E.
  - now apply Print_cons_Some.
  - now apply (Print_cons_None _ _ p).
Qed.

Lemma formatString_label (label expected : string) :
  (forall input, rangeKeywords input ≡ₚ keywords) ->
  parseTags label = Some expected ->
  forallb (fun order =>
             String.eqb (colorizeKeywords (fun _ => order) expected) expected)
          (permutations keywords) = true ->
  formatString rangeKeywords label = Some expected.
Proof.
  intros Hperm Hparse Hall. unfold formatString. rewrite Hparse.
  simpl fmap. f_equal. now apply colorizeKeywords_any_order.
Qed.

End Printing.

(** At the top level [Print] renders an argument as [formatValue] renders
    the value it holds, with three exceptions: a nil argument is printed as
    "<nil>" where [formatValue] panics; a string of a type with a print
    method is rendered from its content, [v.String()], where [formatValue]
    renders what the method prints; and a value of another kind than
    string, number, boolean, map, slice or struct is tag-parsed but not
    keyword-highlighted.  One argument gives its rendering and a newline. *)
Theorem Print_top_level_dispatch
        (rangeKeywords : string -> list (string * string)) (arg : Value) :
  formatArg rangeKeywords arg =
  match arg with
  | VNil => Some "<nil>"
  | VLeaf _ (LNamedString s _) => formatString rangeKeywords s
  | VLeaf _ (LOther text) => parseTags text
  | _ => formatValue rangeKeywords (ValueOf arg)
  end /\
  (forall (iface : bool) (s printed : string),
      formatValue rangeKeywords (VLeaf iface (LNamedString s printed))
      = formatString rangeKeywords printed) /\
  (forall (iface : bool) (text : string),
      formatValue rangeKeywords (VLeaf iface (LOther text))
      = colorizeKeywords rangeKeywords <$> parseTags text) /\
  formatValue rangeKeywords VNil = None /\
  Print rangeKeywords [arg] =
  s ← formatArg rangeKeywords arg; Some (s +:+ LF).
Proof.
  split.
  - destruct arg as [| iface [z | text | b | s | s printed | text] | | |];
      reflexivity.
  - repeat (split; [reflexivity |]).
    rewrite Print_formatArg. cbn [mapM].
    destruct (formatArg rangeKeywords arg); reflexivity.
Qed.

(** [Print] puts one space between the renderings of its arguments and a
    newline at the end; without arguments it prints the newline alone. *)
Theorem Print_joins_with_spaces
        (rangeKeywords : string -> list (string * string))
        (arg : Value) (args : list Value) (s out : string) :
  formatArg rangeKeywords arg = Some s ->
  Print rangeKeywords args = Some out ->
  Print rangeKeywords (arg :: args) = Some (s +:+ separator args +:+ out) /\
  Print rangeKeywords [] = Some LF.
Proof.
  intros Hs Hout. split; [now apply Print_cons_Some | reflexivity].
Qed.

Lemma Print_joins_with_spaces_witness :
  Print (fun _ => keywords)
        [VLeaf false (LString "a"); VLeaf false (LString "b"); VNil]
  = Some ("a" +:+ " " +:+ "b <nil>" +:+ LF).
Proof.
  apply (Print_joins_with_spaces (fun _ => keywords)
           (VLeaf false (LString "a")) [VLeaf false (LString "b"); VNil]
           "a" ("b <nil>" +:+ LF)); reflexivity.
Defined.

(** Each severity logger prints what [Print] prints for the arguments,
    after its label and a space (no space without arguments).  The label
    is the text under the color and bold, between the prefixes of the
    stacks [color], [color; 1], [color] and the empty stack; the keyword
    highlighter leaves every label as it is, also "INFO:", which follows
    the byte 'm' of its escape prefix and so does not start at a word
    boundary. *)
Theorem severity_loggers_prefix_Print
        (rangeKeywords : string -> list (string * string))
        (args : list Value) :
  (forall input, rangeKeywords input ≡ₚ keywords) ->
  Info rangeKeywords args =
  (rest ← Print rangeKeywords args;
   Some (severityLabel "34" "INFO:" +:+ separator args +:+ rest)) /\
  Success rangeKeywords args =
  (rest ← Print rangeKeywords args;
   Some (severityLabel "32" "SUCC:" +:+ separator args +:+ rest)) /\
  Error rangeKeywords args =
  (rest ← Print rangeKeywords args;
   Some (severityLabel "31" "ERRR:" +:+ separator args +:+ rest)) /\
  Warning rangeKeywords args =
  (rest ← Print rangeKeywords args;
   Some (severityLabel "33" "WARN:" +:+ separator args +:+ rest)) /\
  Debug rangeKeywords args =
  (rest ← Print rangeKeywords args;
   Some (severityLabel "37" "DEBUG:" +:+ separator args +:+ rest)).
Proof.
  intros Hperm.
  repeat split;
    apply logWithPrefix_Print;
    (apply formatString_label;
     [exact Hperm | reflexivity | vm_compute; reflexivity]).
Qed.

Lemma severity_loggers_prefix_Print_witness :
  Info (fun _ => keywords) [VLeaf false (LString "ready")]
  = Some (severityLabel "34" "INFO:" +:+ " " +:+ "ready" +:+ LF).
Proof.
  apply (severity_loggers_prefix_Print (fun _ => keywords)
           [VLeaf false (LString "ready")]).
  intros input. reflexivity.
Defined.

(** ** The highlighter only inserts *)

Section Inserts.

Lemma bytes_append (s t : string) : bytes (s +:+ t) = (bytes s ++ bytes t)%list.
Proof.
  unfold bytes. induction s as [|c s IH]; simpl; [reflexivity |].
  now rewrite IH.
Qed.

Lemma bytes_length (s : string) : length (bytes s) = String.length s.
Proof.
  unfold bytes. induction s as [|c s IH]; simpl; [reflexivity |].
  now rewrite IH.
Qed.

Lemma bytes_substring (n : nat) (s : string) :
  bytes (substring 0 n s) = take n (bytes s).
Proof.
  unfold bytes. revert n. induction s as [|c s IH]; intros [|n]; simpl;
    try reflexivity.
  now rewrite IH.
Qed.

Lemma replaceFrom_inserts (keyword code reset : string) :
  keyword <> "" ->
  forall (s : string) (prev : option ascii) (skip : nat),
    drop skip (bytes s) `sublist_of`
    bytes (Regexp.replaceFrom keyword (fun m => code +:+ m +:+ reset)
             prev skip s).
Proof.
  intros Hkw. induction s as [|c s IH]; intros prev skip.
  - destruct skip; simpl; constructor.
  - destruct skip as [|skip]; cbn [Regexp.replaceFrom].
    + destruct (Regexp.matchAt keyword prev (String c s)).
      * destruct keyword as [|k keyword]; [now destruct Hkw |].
        cbn [String.length Nat.sub]. rewrite Nat.sub_0_r.
        rewrite !bytes_append, bytes_substring, <- !app_assoc.
        apply sublist_inserts_l.
        change (drop 0 (bytes (String c s))) with (c :: bytes s).
        change (bytes (String c s)) with (c :: bytes s). cbn [take app].
        constructor.
        rewrite <- (take_drop (String.length keyword) (bytes s)) at 1.
        apply sublist_app; [reflexivity |].
        apply sublist_inserts_l, IH.
      * change (drop 0 (bytes (String c s))) with (c :: bytes s).
        match goal with
        | |- _ `sublist_of` bytes (String c ?x) =>
            change (bytes (String c x)) with (c :: bytes x)
        end.
        constructor. apply (IH (Some c) 0%nat).
    + change (drop (S skip) (bytes (String c s))) with (drop skip (bytes s)).
      apply IH.
Qed.

Lemma colorize_fold_inserts (order : list (string * string)) :
  Forall (fun entry => entry.1 <> "") order ->
  forall input : string,
    bytes input `sublist_of`
    bytes (foldl (fun input '(keyword, colorCode) =>
                    Regexp.ReplaceAllStringFunc keyword input
                      (fun match_ => colorCode +:+ match_ +:+ ESC +:+ "[0m"))
                 input order).
Proof.
  induction 1 as [|[keyword code] order Hkw _ IH]; intros input.
  - reflexivity.
  - cbn [foldl]. etransitivity; [| apply IH].
    unfold Regexp.ReplaceAllStringFunc.
    apply (replaceFrom_inserts keyword code (ESC +:+ "[0m") Hkw input None 0).
Qed.

Lemma keywords_nonempty : Forall (fun entry => entry.1 <> "") keywords.
Proof. repeat constructor; discriminate. Qed.

End Inserts.

(** The keyword highlighter removes and changes no byte: its input is a
    subsequence of its output, in whatever order it runs its passes. *)
Theorem colorizeKeywords_inserts_only
        (rangeKeywords : string -> list (string * string)) (input : string) :
  rangeKeywords input ≡ₚ keywords ->
  bytes input `sublist_of` bytes (colorizeKeywords rangeKeywords input) /\
  (String.length input
   <= String.length (colorizeKeywords rangeKeywords input))%nat.
Proof.
  intros Hperm.
  assert (S : bytes input `sublist_of`
              bytes (colorizeKeywords rangeKeywords input)).
  { unfold colorizeKeywords. apply colorize_fold_inserts.
    rewrite Hperm. apply keywords_nonempty. }
  split; [exact S |]. apply sublist_length in S.
  now rewrite !bytes_length in S.
Qed.

Lemma colorizeKeywords_inserts_only_witness :
  bytes "no error" `sublist_of`
  bytes (colorizeKeywords (fun _ => keywords) "no error").
Proof.
  apply (colorizeKeywords_inserts_only (fun _ => keywords) "no error").
  reflexivity.
Defined.

(** ** A word right after a tag *)

Section StyledWord.

Lemma startsKeyword_false (c k : ascii) (keyword code : string) :
  startsKeyword c = false -> In (String k keyword, code) keywords ->
  byte_eqb (lowerByte c) (lowerByte k) = false.
Proof.
  intros Hc Hin.
  destruct (byte_eqb (lowerByte c) (lowerByte k)) eqn:E; [| reflexivity].
  rewrite <- Hc. symmetry. apply existsb_exists.
  exists (String k keyword, code). split; [exact Hin | exact E].
Qed.

Lemma matchAt_other_initial (c k : ascii) (keyword s : string)
      (prev : option ascii) :
  byte_eqb (lowerByte c) (lowerByte k) = false ->
  Regexp.matchAt (String k keyword) prev (String c s) = false.
Proof.
  intros H. unfold Regexp.matchAt. cbn [Regexp.matchFold]. rewrite H.
  now rewrite andb_false_r.
Qed.

Lemma matchAt_inside_word (c p : ascii) (keyword s : string) :
  Regexp.isWordByte p = true -> Regexp.isWordByte c = true ->
  Regexp.matchAt keyword (Some p) (String c s) = false.
Proof.
  intros Hp Hc. unfold Regexp.matchAt, Regexp.wordBoundary.
  cbn [Regexp.first Regexp.isWord]. now rewrite Hp, Hc.
Qed.

Lemma replaceFrom_word (keyword : string) (repl : string -> string)
      (word : string) :
  isWordText word ->
  forall p : ascii,
    Regexp.isWordByte p = true ->
    Regexp.replaceFrom keyword repl (Some p) 0 word = word.
Proof.
  unfold isWordText. induction word as [|c word IH]; intros H p Hp;
    [reflexivity |].
  change (bytes (String c word)) with (c :: bytes word) in H.
  inversion H as [|? ? Hc Hword]; subst. cbn [Regexp.replaceFrom].
  rewrite (matchAt_inside_word _ _ _ _ Hp Hc). f_equal. now apply IH.
Qed.

Lemma replaceFrom_styled (k : ascii) (keyword code : string)
      (repl : string -> string) (word : string) :
  In (String k keyword, code) keywords ->
  isWordText word ->
  forall (pre : string) (prev : option ascii),
    Forall (fun c => startsKeyword c = false) (bytes pre) ->
    Regexp.replaceFrom (String k keyword) repl prev 0
      (pre +:+ String "m" word)
    = pre +:+ String "m" word.
Proof.
  intros Hin Hword. induction pre as [|c pre IH]; intros prev Hpre.
  - cbn [String.append Regexp.replaceFrom].
    rewrite matchAt_other_initial
      by (exact (startsKeyword_false "m" k keyword code eq_refl Hin)).
    f_equal. now apply replaceFrom_word.
  - change (bytes (String c pre)) with (c :: bytes pre) in Hpre.
    inversion Hpre as [|? ? Hc Hrest]; subst.
    cbn [String.append Regexp.replaceFrom].
    rewrite matchAt_other_initial
      by (exact (startsKeyword_false c k keyword code Hc Hin)).
    f_equal. now apply IH.
Qed.

Lemma colorize_fold_styled (pre word : string)
      (order : list (string * string)) :
  Forall (fun entry => In entry keywords) order ->
  isWordText word ->
  Forall (fun c => startsKeyword c = false) (bytes pre) ->
  foldl (fun input '(keyword, colorCode) =>
           Regexp.ReplaceAllStringFunc keyword input
             (fun match_ => colorCode +:+ match_ +:+ ESC +:+ "[0m"))
        (pre +:+ String "m" word) order
  = pre +:+ String "m" word.
Proof.
  intros Horder Hword Hpre.
  induction Horder as [|[keyword code] order Hin _ IH]; [reflexivity |].
  cbn [foldl]. unfold Regexp.ReplaceAllStringFunc at 2.
  destruct keyword as [|k keyword].
  - exfalso. simpl in Hin.
    repeat (destruct Hin as [Hin | Hin]; [discriminate Hin |]). exact Hin.
  - rewrite (replaceFrom_styled k keyword code _ word Hin Hword pre None Hpre).
    exact IH.
Qed.

(** The codes of the table hold no byte a keyword starts with. *)
Lemma styles_codes_clean :
  forallb (fun style => forallb (fun c => negb (startsKeyword c))
                                (bytes (Code style))) styles = true.
Proof. reflexivity. Qed.

Lemma code_clean (code : string) :
  (exists style, In style styles /\ Code style = code) ->
  Forall (fun c => startsKeyword c = false) (bytes code).
Proof.
  intros (style & Hin & <-). pose proof styles_codes_clean as H.
  rewrite forallb_forall in H. specialize (H _ Hin).
  rewrite forallb_forall in H. apply List.Forall_forall.
  intros c Hc. apply H in Hc. now apply negb_true_iff in Hc.
Qed.

Lemma Join_codes_clean (stack : list string) :
  registeredCodes stack ->
  Forall (fun c => startsKeyword c = false) (bytes (Join stack ";")).
Proof.
  unfold registeredCodes. induction 1 as [|code stack Hcode Hstack IH].
  - constructor.
  - unfold Join in *. cbn [String.concat]. destruct stack as [|code' stack].
    + now apply code_clean.
    + rewrite !bytes_append. apply Forall_app. split; [now apply code_clean |].
      apply Forall_app. split; [repeat constructor | exact IH].
Qed.

Lemma colorizeKeywords_styled
      (rangeKeywords : string -> list (string * string))
      (stack : list string) (word : string) :
  (forall input, rangeKeywords input ≡ₚ keywords) ->
  registeredCodes stack -> isWordText word ->
  colorizeKeywords rangeKeywords (applyStyling word stack)
  = applyStyling word stack.
Proof.
  intros Hperm Hstack Hword. unfold colorizeKeywords.
  generalize (Hperm (applyStyling word stack)).
  generalize (rangeKeywords (applyStyling word stack)) as order.
  intros order Horder. unfold applyStyling.
  replace (ESC +:+ "[" +:+ Join stack ";" +:+ "m" +:+ word)
    with ((ESC +:+ "[" +:+ Join stack ";") +:+ String "m" word)
    by (now rewrite !append_assoc).
  apply colorize_fold_styled; [| exact Hword |].
  - rewrite Horder. apply List.Forall_forall. auto.
  - rewrite !bytes_append. apply Forall_app. split; [repeat constructor |].
    apply Forall_app. split; [repeat constructor |].
    now apply Join_codes_clean.
Qed.

Lemma isWordText_no_open (word : string) :
  isWordText word -> Contains word "[" = false.
Proof.
  unfold isWordText. induction word as [|c word IH]; [reflexivity |].
  change (bytes (String c word)) with (c :: bytes word).
  intros H. inversion H as [|? ? Hc Hword]; subst. cbn [Contains].
  rewrite (IH Hword), orb_false_r. clear -Hc.
  destruct c as [[|] [|] [|] [|] [|] [|] [|] [|]];
    first [reflexivity | discriminate Hc].
Qed.

End StyledWord.

(** A text of word bytes right after a tag header is never highlighted,
    not even when it is a keyword: the byte 'm' that ends the escape prefix
    is a word byte, so the text does not start at a word boundary.  For
    such an input [formatString] returns what [parseTags] returns. *)
Theorem styled_word_not_highlighted
        (rangeKeywords : string -> list (string * string))
        (tags word : string) :
  (forall input, rangeKeywords input ≡ₚ keywords) ->
  Contains tags "[" = false -> Contains tags "]" = false ->
  isWordText word ->
  formatString rangeKeywords ("[" +:+ tags +:+ "]" +:+ word)
  = parseTags ("[" +:+ tags +:+ "]" +:+ word) /\
  exists stack : list string,
    applyTags [] (Fields tags) = Some stack /\
    parseTags ("[" +:+ tags +:+ "]" +:+ word)
    = Some (applyStyling word stack).
Proof.
  intros Hperm Hopen Hclose Hword.
  destruct (applyTags_total (Fields tags) []) as [stack E].
  assert (Hreg : registeredCodes stack).
  { apply (applyTags_registered _ _ _ (List.Forall_nil _) E). }
  assert (P : parseTags ("[" +:+ tags +:+ "]" +:+ word)
              = Some (applyStyling word stack)).
  { unfold parseTags.
    change ("[" +:+ tags +:+ "]" +:+ word)
      with ("" +:+ String "[" (tags +:+ "]" +:+ word)).
    rewrite Split_append.
    rewrite (Split_absent (tags +:+ "]" +:+ word) "[")
      by (rewrite Contains_append, Hopen; simpl;
          exact (isWordText_no_open _ Hword)).
    change (Split "" "[") with [""]. cbn [app].
    rewrite parseLoop_first, parseLoop_step.
    rewrite (parseSegment_header _ _ _ Hclose), E.
    cbn [mbind option_bind parseLoop].
    rewrite !Join_cons. cbn [Join String.concat].
    now rewrite append_nil_r. }
  split; [| eauto]. unfold formatString. rewrite P. simpl fmap.
  now rewrite colorizeKeywords_styled.
Qed.

Lemma styled_word_not_highlighted_witness :
  formatString (fun _ => keywords) ("[" +:+ "b red" +:+ "]" +:+ "error")
  = parseTags ("[" +:+ "b red" +:+ "]" +:+ "error").
Proof.
  apply (styled_word_not_highlighted (fun _ => keywords) "b red" "error");
    [intros input; reflexivity | reflexivity | reflexivity |].
  repeat constructor.
Defined.
